(** * UidMap (tng.py): a shallow embedding and its verified properties

    The Python class [UidMap] packs a serial number, a child slot and a
    timestep into one 64-bit word and keeps a four-level, lazily allocated
    table  year -> child -> day -> array of (index, uid) rows.

    Conventions of the embedding.
    - NumPy fixed-width integers are integers of [Z] with the wrap-around
      written out: [to_u64] for [np.uint64], [to_u32] for [np.uint32],
      [int64] for [np.int64].
    - The source pins no NumPy version, and the type of an expression that
      mixes a Python integer with a [np.uint32] scalar depends on it:
      NumPy 1.x promotes both to [int64]; NumPy 2.x keeps [uint32] and
      refuses a Python integer outside [uint32] with [OverflowError]. The
      version is a parameter, [np], of the whole development. A shift by
      the width of the type or more yields 0 in both.
    - [np.uint32(np.ceil(np.log2(n)))] is [Z.log2_up] for the capacities
      [1 <= n <= 2^32], where the floating-point computation is exact.
    - A Python list or NumPy array is a [list]; reading position [i] is
      stdpp's [l !! i] and [None] there is the exception Python raises for
      a subscript out of range; an unallocated entry ([None] in Python) is
      [None] inside the list.
    - Memory is unbounded: an allocation of a non-negative size succeeds.
    - A uid is a 64-bit word: a uid argument stands for its low 64 bits.
      The other arguments are Python integers.
    - A method is a function of the object that returns the object after
      the call together with the value returned or the exception raised. *)

From Stdlib Require Import ZArith Lia List Sorted.
From stdpp Require Import base tactics option list sorting.

Open Scope Z_scope.

(** ** Fixed-width integers *)

Definition to_u64 (x : Z) : Z := x mod 2 ^ 64.
Definition to_u32 (x : Z) : Z := x mod 2 ^ 32.
Definition int64 (x : Z) : Z := (x + 2 ^ 63) mod 2 ^ 64 - 2 ^ 63.

Definition is_u64 (x : Z) : Prop := 0 <= x < 2 ^ 64.

(** [0xFFFFFFFFFFFFFFFF], the index of an empty row. *)
Definition sentinel : Z := 18446744073709551615.

(** ** NumPy versions *)

(** [NumPy1]: value-based promotion (NumPy 1.x). [NumPy2]: NEP 50
    promotion (NumPy 2.x). *)
Inductive numpy : Type := NumPy1 | NumPy2.

(** ** Exceptions and results *)

Inductive exn : Type := IndexError | TypeError | OverflowError | ValueError.

Inductive outcome (A : Type) : Type :=
| Ok (a : A)
| Raise (e : exn).
Arguments Ok {A} a.
Arguments Raise {A} e.

(** ** The object *)

(** A row of the level-4 array: column 0 is the index, column 1 the uid. *)
Abbreviation row := (Z * Z)%type.
Abbreviation ssn_array := (list row).
Abbreviation day_list := (list (option ssn_array)).
Abbreviation child_list := (list (option day_list)).

Record UidMap : Type := mkUidMap {
  pop_bits : Z;
  time_bits : Z;
  child_bits : Z;
  day_bits : Z;
  year_bits : Z;
  ssn_offset : Z;
  child_offset : Z;
  child_mask : Z;
  time_mask : Z;
  day_mask : Z;
  mapping : list (option child_list)
}.

Definition set_mapping (m : UidMap) (t : list (option child_list)) : UidMap :=
  mkUidMap (pop_bits m) (time_bits m) (child_bits m) (day_bits m) (year_bits m)
           (ssn_offset m) (child_offset m) (child_mask m) (time_mask m)
           (day_mask m) t.

(** ** Decoding *)

Definition parse_uid (m : UidMap) (uid : Z) : Z * Z * Z * Z :=
  let uid := to_u64 uid in
  let ssn := Z.shiftr uid (ssn_offset m) in
  let child := Z.land (Z.shiftr uid (child_offset m)) (child_mask m) in
  let time := Z.land uid (time_mask m) in
  let year := Z.shiftr time (day_bits m) in
  let day := Z.land time (day_mask m) in
  (ssn, child, day, year).

(** ** Lookup *)

(** The exception of a NumPy subscript that is not in range: a subscript
    that does not fit a signed 64-bit integer is refused with
    [OverflowError] before the bounds are looked at. An array has fewer
    than [2^63] rows, so such a subscript is never in range. *)
Definition subscript_error (i : Z) : exn :=
  if i <? 2 ^ 63 then IndexError else OverflowError.

Definition get_index (m : UidMap) (uid : Z) : UidMap * outcome Z :=
  let uid := to_u64 uid in
  let '(ssn, child, day, year) := parse_uid m uid in
  match mapping m !! Z.to_nat year with
  | None => (m, Raise IndexError)
  | Some None => (m, Raise TypeError)
  | Some (Some cl) =>
    match cl !! Z.to_nat child with
    | None => (m, Raise IndexError)
    | Some None => (m, Raise TypeError)
    | Some (Some dl) =>
      match dl !! Z.to_nat day with
      | None => (m, Raise IndexError)
      | Some None => (m, Raise TypeError)
      | Some (Some arr) =>
        match arr !! Z.to_nat ssn with
        | None => (m, Raise (subscript_error ssn))
        | Some r => (m, Ok (fst r))
        end
      end
    end
  end.

(** ** Enumeration *)

(** The innermost loop: the rows of one array, in order. *)
Fixpoint ssn_uids (a : ssn_array) : list Z :=
  match a with
  | [] => []
  | (index, uid) :: a' =>
    if index =? sentinel then ssn_uids a' else uid :: ssn_uids a'
  end.

(** One loop level: every entry in order, [None] entries skipped. *)
Definition each {A B : Type} (body : A -> list B) (l : list (option A))
  : list B :=
  flat_map (fun o => match o with None => [] | Some x => body x end) l.

Definition uids (m : UidMap) : UidMap * list Z :=
  (m, each (each (each ssn_uids)) (mapping m)).

(** ** Positions of the table *)

(** A position is (year, child slot, day, serial number). *)
Definition pos : Type := nat * nat * nat * nat.

Definition coord (m : UidMap) (uid : Z) : pos :=
  let '(ssn, child, day, year) := parse_uid m uid in
  (Z.to_nat year, Z.to_nat child, Z.to_nat day, Z.to_nat ssn).

(** The allocated table at entry [i] of one level. *)
Definition entry {A : Type} (l : list (option A)) (i : nat) : option A :=
  match l !! i with
  | Some (Some x) => Some x
  | _ => None
  end.

(** The row at a position, when the three levels above it are allocated. *)
Definition row_at (m : UidMap) (p : pos) : option row :=
  let '(y, c, d, s) := p in
  match entry (mapping m) y with
  | None => None
  | Some cl =>
    match entry cl c with
    | None => None
    | Some dl =>
      match entry dl d with
      | None => None
      | Some arr => arr !! s
      end
    end
  end.

(** The level-4 array of a (year, child slot, day), when allocated. *)
Definition array_at (m : UidMap) (y c d : nat) : option ssn_array :=
  match entry (mapping m) y with
  | None => None
  | Some cl =>
    match entry cl c with
    | None => None
    | Some dl => entry dl d
    end
  end.

(** The rows below one child table and below one day table. *)
Definition row_in_dl (dl : day_list) (d s : nat) : option row :=
  match entry dl d with
  | None => None
  | Some arr => arr !! s
  end.

Definition row_in_cl (cl : child_list) (c d s : nat) : option row :=
  match entry cl c with
  | None => None
  | Some dl => row_in_dl dl d s
  end.

(** What an insert does to a row it does not write: nothing, or the row
    appears, empty, in a newly allocated array. *)
Definition grows (before after : option row) : Prop :=
  before = after \/ (before = None /\ after = Some (sentinel, 0)).

(** The lexicographic order year, child slot, day, serial number. *)
Definition pos_lt (p q : pos) : Prop :=
  let '(y, c, d, s) := p in
  let '(y', c', d', s') := q in
  (y < y' \/ (y = y' /\
    (c < c' \/ (c = c' /\ (d < d' \/ (d = d' /\ s < s'))))))%nat.

(** The storage index bound to [u]: the index of the row at the position
    of [u], unless that row is empty. *)
Definition binding (m : UidMap) (u : Z) : option Z :=
  match row_at m (coord m u) with
  | Some (i, _) => if i =? sentinel then None else Some i
  | None => None
  end.

(** Every occupied row holds a 64-bit uid that decodes to the position of
    the row. *)
Definition coherent (m : UidMap) : Prop :=
  forall (p : pos) (i u : Z),
    row_at m p = Some (i, u) -> i <> sentinel -> coord m u = p /\ is_u64 u.

(** A level of [n] entries whose allocated entries satisfy [P]. *)
Definition level_ok {A : Type} (n : nat) (P : A -> Prop)
    (l : list (option A)) : Prop :=
  length l = n /\ forall (j : nat) (x : A), entry l j = Some x -> P x.

(** No level-4 array is allocated. *)
Definition vacant (m : UidMap) : Prop := forall p : pos, row_at m p = None.

(** The index given by the most recent insert of [u] in a run, if any. *)
Fixpoint last_insert (ops : list (Z * Z)) (u : Z) : option Z :=
  match ops with
  | [] => None
  | (uid, index) :: ops' =>
    match last_insert ops' u with
    | Some i => Some i
    | None => if to_u64 uid =? u then Some (to_u64 index) else None
    end
  end.

(** ** Enumeration with positions *)

(** [flat_map] with the index of each element. *)
Definition iflat {A B : Type} (f : nat -> A -> list B) (l : list A) : list B :=
  mjoin (imap f l).

Definition ieach {A B : Type} (body : nat -> A -> list B)
    (l : list (option A)) : list B :=
  iflat (fun i o => match o with None => [] | Some x => body i x end) l.

Definition occ_ssn (y c d : nat) (a : ssn_array) : list (pos * Z) :=
  iflat (fun s r => if fst r =? sentinel then [] else [((y, c, d, s), snd r)]) a.
Definition occ_day (y c : nat) (dl : day_list) : list (pos * Z) :=
  ieach (occ_ssn y c) dl.
Definition occ_child (y : nat) (cl : child_list) : list (pos * Z) :=
  ieach (occ_day y) cl.

(** The occupied rows with their positions, in the order of the loops. *)
Definition occupied (m : UidMap) : list (pos * Z) :=
  ieach occ_child (mapping m).

(** The order of the positions, on rows with their positions. *)
Definition entry_lt (a b : pos * Z) : Prop := pos_lt (fst a) (fst b).

(** * The code that depends on the NumPy version *)

Section NumPy.
Variable np : numpy.

(** ** Python integers among [np.uint32] scalars *)

(** The width of the type of [k << b] and [k - 1], for a Python integer
    [k] and a [np.uint32] scalar [b]: [int64] or [uint32]. *)
Definition width : Z := match np with NumPy1 => 64 | NumPy2 => 32 end.

(** A value brought into that type. *)
Definition wrap (x : Z) : Z :=
  match np with NumPy1 => int64 x | NumPy2 => to_u32 x end.

(** The non-negative values below [2^exact] are the ones [wrap] leaves as
    they are. *)
Definition exact : Z := match np with NumPy1 => 63 | NumPy2 => 32 end.

(** The Python integers that convert to that type. NumPy 2 refuses the
    others with [OverflowError]; NumPy 1 computes with them in [uint64],
    [float64] or as Python objects, which this embedding leaves out. *)
Definition operand (k : Z) : bool :=
  match np with
  | NumPy1 => (- 2 ^ 63 <=? k) && (k <? 2 ^ 63)
  | NumPy2 => (0 <=? k) && (k <? 2 ^ 32)
  end.

(** [k << s]. *)
Definition lshift (k s : Z) : Z :=
  if s <? width then wrap (Z.shiftl k s) else 0.

(** [1 << bits] for a [np.uint32] width. *)
Definition shl1 (bits : Z) : Z := lshift 1 bits.

(** [np.uint64((1 << bits) - 1)]. *)
Definition mask (bits : Z) : Z := to_u64 (wrap (shl1 bits - 1)).

(** ** Constructor *)

Definition bits_for (n : Z) : Z := to_u32 (Z.log2_up n).

(** The part of the constructor after the four widths are known. *)
Definition of_bits (pb tb cb db : Z) : UidMap :=
  let yb := to_u32 (tb - db) in
  let num_years := to_u32 (shl1 yb) in
  {| pop_bits := pb; time_bits := tb; child_bits := cb; day_bits := db;
     year_bits := yb;
     ssn_offset := to_u32 (cb + tb);
     child_offset := tb;
     child_mask := mask cb;
     time_mask := mask tb;
     day_mask := mask db;
     mapping := replicate (Z.to_nat num_years) None |}.

Definition __init__ (initial_population_size number_of_timesteps
                     max_children year_size : Z) : outcome UidMap :=
  Ok (of_bits (bits_for initial_population_size)
              (bits_for number_of_timesteps)
              (bits_for max_children)
              (bits_for year_size)).

(** ** Encoding *)

(** [None]: an argument that NumPy 1 does not take as an [int64], left
    out of the embedding. *)
Definition make_uid (m : UidMap) (ssn time child : Z) : option (outcome Z) :=
  if operand ssn && operand child && operand time
  then Some (Ok (to_u64 (wrap (wrap (lshift ssn (ssn_offset m)
                                     + lshift child (child_offset m))
                               + time))))
  else match np with
       | NumPy1 => None
       | NumPy2 => Some (Raise OverflowError)
       end.

(** ** Insert *)

Definition fresh_child_list (m : UidMap) : child_list :=
  replicate (Z.to_nat (shl1 (child_bits m))) None.
Definition fresh_day_list (m : UidMap) : day_list :=
  replicate (Z.to_nat (shl1 (day_bits m))) None.
Definition fresh_ssn_array (m : UidMap) : ssn_array :=
  replicate (Z.to_nat (shl1 (pop_bits m))) (sentinel, 0).

(** [np.zeros((1 << pop_bits, 2))] with column 0 set to the sentinel; a
    negative number of rows is refused. *)
Definition new_ssn_array (m : UidMap) : outcome ssn_array :=
  if shl1 (pop_bits m) <? 0 then Raise ValueError
  else Ok (fresh_ssn_array m).

(** The array of a day, allocated when the entry is [None]. *)
Definition ssn_array_at (m : UidMap) (at_day : option ssn_array)
  : outcome ssn_array :=
  match at_day with
  | Some arr => Ok arr
  | None => new_ssn_array m
  end.

(** A Python integer stored into a [uint64] array. NumPy 1 wraps a
    negative integer that fits [int64]. *)
Definition as_u64 (k : Z) : outcome Z :=
  if ((match np with NumPy1 => - 2 ^ 63 | NumPy2 => 0 end) <=? k)
     && (k <? 2 ^ 64)
  then Ok (to_u64 k)
  else Raise OverflowError.

Definition add_individual (m : UidMap) (uid index : Z)
  : UidMap * outcome unit :=
  let uid := to_u64 uid in
  let '(ssn, child, day, year) := parse_uid m uid in
  let y := Z.to_nat year in
  let c := Z.to_nat child in
  let d := Z.to_nat day in
  let s := Z.to_nat ssn in
  match mapping m !! y with
  | None => (m, Raise IndexError)
  | Some at_year =>
    let cl := default (fresh_child_list m) at_year in
    match cl !! c with
    | None => (set_mapping m (<[y := Some cl]> (mapping m)), Raise IndexError)
    | Some at_child =>
      let dl := default (fresh_day_list m) at_child in
      match dl !! d with
      | None =>
        (set_mapping m (<[y := Some (<[c := Some dl]> cl)]> (mapping m)),
         Raise IndexError)
      | Some at_day =>
        match ssn_array_at m at_day with
        | Raise e =>
          (set_mapping m (<[y := Some (<[c := Some dl]> cl)]> (mapping m)),
           Raise e)
        | Ok arr =>
          let store (a : ssn_array) :=
            set_mapping m
              (<[y := Some (<[c := Some (<[d := Some a]> dl)]> cl)]>
                 (mapping m)) in
          match arr !! s with
          | None => (store arr, Raise (subscript_error ssn))
          | Some _ =>
            match as_u64 index with
            | Raise e => (store arr, Raise e)
            | Ok i => (store (<[s := (i, uid)]> arr), Ok tt)
            end
          end
        end
      end
    end
  end.

(** ** Layout *)

(** The configuration fields are the ones the constructor derives from the
    four widths, the day fits in the time, the three uid fields fit in 64
    bits, and the masks are as wide as their fields. *)
Record layout_ok (m : UidMap) : Prop := mk_layout_ok {
  lo_derived :
    m = set_mapping
          (of_bits (pop_bits m) (time_bits m) (child_bits m) (day_bits m))
          (mapping m);
  lo_pop : 0 <= pop_bits m;
  lo_child : 0 <= child_bits m;
  lo_day : 0 <= day_bits m <= time_bits m;
  lo_sum : pop_bits m + time_bits m + child_bits m <= 64;
  lo_mask : time_bits m <= width /\ child_bits m <= width
}.

(** ** A driver: a run of inserts, stopped by the first exception *)

Fixpoint add_all (m : UidMap) (ops : list (Z * Z)) : UidMap * outcome unit :=
  match ops with
  | [] => (m, Ok tt)
  | (uid, index) :: ops' =>
    match add_individual m uid index with
    | (m', Ok _) => add_all m' ops'
    | (m', Raise e) => (m', Raise e)
    end
  end.

(** ** Invariants of the table *)

Definition shape_arr (m : UidMap) (arr : ssn_array) : Prop :=
  length arr = Z.to_nat (shl1 (pop_bits m)).
Definition shape_dl (m : UidMap) : day_list -> Prop :=
  level_ok (Z.to_nat (shl1 (day_bits m))) (shape_arr m).
Definition shape_cl (m : UidMap) : child_list -> Prop :=
  level_ok (Z.to_nat (shl1 (child_bits m))) (shape_dl m).

(** Every allocated level has the length the layout gives it. *)
Definition shape_ok (m : UidMap) : Prop :=
  level_ok (Z.to_nat (to_u32 (shl1 (year_bits m)))) (shape_cl m) (mapping m).

(** The widths for which the lengths [1 << bits] are not truncated. *)
Definition allocatable (m : UidMap) : Prop :=
  year_bits m < 32 /\ child_bits m < exact /\ day_bits m < exact
  /\ pop_bits m < exact.

(** ** Concrete objects *)

(** [UidMap(1, 1, 1, 1)]: all widths 0, so the uid is the serial number
    and every level has one entry. *)
Definition tiny_map : UidMap := of_bits 0 0 0 0.

(** [UidMap(4, 4, 2, 2)]: widths 2, 2, 1, 1, so two years, two child
    slots, two days and four serial numbers. *)
Definition small_map : UidMap := of_bits 2 2 1 1.

(** [UidMap(10_000, 365*20)] of [main]: widths 14, 13, 3, 8. *)
Definition main_map : UidMap := of_bits 14 13 3 8.

(** [UidMap(2**20, 2**20, 8, 256)]: widths 20, 20, 3, 8; a uid has 43
    bits. *)
Definition long_map : UidMap := of_bits 20 20 3 8.

(** [UidMap(4, 2**32, 2, 1)]: widths 2, 32, 1, 0, so 32 bits of year. *)
Definition wide_map : UidMap := of_bits 2 32 1 0.

(** ** The first loop of [main] *)





(** * Properties *)

(** ** Arithmetic of the fixed-width operations *)

Lemma pow2_pos (n : Z) : 0 <= n -> 0 < 2 ^ n.
Proof. intros. apply Z.pow_pos_nonneg; lia. Qed.

Lemma pow2_split (a b : Z) : 0 <= a <= b -> 2 ^ b = 2 ^ a * 2 ^ (b - a).
Proof.
  intros. rewrite <- Z.pow_add_r by lia. f_equal. lia.
Qed.

Lemma mod_pow2_split (x a b : Z) :
  0 <= a <= b ->
  x mod 2 ^ b = x mod 2 ^ a + 2 ^ a * ((x / 2 ^ a) mod 2 ^ (b - a)).
Proof.
  intros H. rewrite (pow2_split a b H).
  pose proof (pow2_pos a ltac:(lia)). pose proof (pow2_pos (b - a) ltac:(lia)).
  apply Z.rem_mul_r; lia.
Qed.

Lemma mod_pow2_div (x a b : Z) :
  0 <= a <= b -> (x mod 2 ^ b) / 2 ^ a = (x / 2 ^ a) mod 2 ^ (b - a).
Proof.
  intros H. rewrite (mod_pow2_split x a b H).
  pose proof (pow2_pos a ltac:(lia)) as Ha.
  rewrite Z.mul_comm, Z.div_add by lia.
  rewrite Z.div_small by (apply Z.mod_pos_bound; lia). lia.
Qed.

Lemma mod_pow2_mod (x a b : Z) :
  0 <= a <= b -> (x mod 2 ^ b) mod 2 ^ a = x mod 2 ^ a.
Proof.
  intros H. rewrite (mod_pow2_split x a b H).
  pose proof (pow2_pos a ltac:(lia)) as Ha.
  rewrite Z.mul_comm, Z.mod_add by lia.
  apply Z.mod_mod. lia.
Qed.

Lemma to_u64_range (x : Z) : is_u64 (to_u64 x).
Proof. unfold is_u64, to_u64. apply Z.mod_pos_bound. lia. Qed.

Lemma to_u64_id (x : Z) : is_u64 x -> to_u64 x = x.
Proof. unfold is_u64, to_u64. intros. apply Z.mod_small. lia. Qed.

Lemma to_u64_int64 (x k : Z) : to_u64 (int64 x - k) = to_u64 (x - k).
Proof.
  unfold to_u64, int64.
  replace ((x + 2 ^ 63) mod 2 ^ 64 - 2 ^ 63 - k)
    with ((x + 2 ^ 63) mod 2 ^ 64 + (- k - 2 ^ 63)) by lia.
  rewrite Zplus_mod_idemp_l. f_equal. lia.
Qed.

Lemma width_bounds :
  32 <= exact <= 63 /\ exact <= width <= 64 /\ width <= exact + 1.
Proof. unfold exact, width. destruct np; lia. Qed.

Lemma pow2_width_pos : 0 < 2 ^ width.
Proof. apply pow2_pos. pose proof width_bounds. lia. Qed.

(** [wrap] keeps the residue modulo [2^width]. *)
Lemma wrap_mod (x : Z) : wrap x mod 2 ^ width = x mod 2 ^ width.
Proof.
  unfold wrap, width. destruct np.
  - pose proof (to_u64_int64 x 0) as H. unfold to_u64 in H.
    now rewrite !Z.sub_0_r in H.
  - unfold to_u32. apply Z.mod_mod. lia.
Qed.

Lemma to_u64_wrap (x : Z) : to_u64 (wrap x) = x mod 2 ^ width.
Proof.
  unfold wrap, width. destruct np.
  - pose proof (to_u64_int64 x 0) as H. now rewrite !Z.sub_0_r in H.
  - unfold to_u64, to_u32. apply Z.mod_small.
    pose proof (Z.mod_pos_bound x (2 ^ 32) ltac:(lia)). lia.
Qed.

Lemma wrap_small (x : Z) : 0 <= x < 2 ^ exact -> wrap x = x.
Proof.
  unfold wrap, exact, int64, to_u32. destruct np; intros H.
  - rewrite Z.mod_small; lia.
  - apply Z.mod_small. lia.
Qed.

Lemma lshift_mod (k s : Z) :
  0 <= s -> lshift k s mod 2 ^ width = (k * 2 ^ s) mod 2 ^ width.
Proof.
  intros Hs. pose proof width_bounds as Hw. unfold lshift.
  destruct (Z.ltb_spec s width).
  - now rewrite wrap_mod, Z.shiftl_mul_pow2.
  - rewrite (pow2_split width s) by lia.
    replace (k * (2 ^ width * 2 ^ (s - width)))
      with (k * 2 ^ (s - width) * 2 ^ width) by lia.
    rewrite Z.mod_mul; [reflexivity|].
    pose proof pow2_width_pos. lia.
Qed.

(** The masks the constructor computes are [2^bits - 1], up to the width
    of the type they are computed in. *)
Lemma mask_ones (b : Z) : 0 <= b <= width -> mask b = Z.ones b.
Proof.
  intros H. pose proof width_bounds as Hw. pose proof pow2_width_pos as Hp.
  unfold mask. rewrite to_u64_wrap, Z.ones_equiv.
  unfold shl1, lshift. destruct (Z.ltb_spec b width).
  - rewrite Z.shiftl_mul_pow2, Z.mul_1_l by lia.
    rewrite <- Zminus_mod_idemp_l, wrap_mod, Zminus_mod_idemp_l.
    assert (0 < 2 ^ b <= 2 ^ width).
    { split; [apply pow2_pos; lia | apply Z.pow_le_mono_r; lia]. }
    rewrite Z.mod_small; lia.
  - replace b with width by lia.
    replace (0 - 1) with (-1 + 0) by lia.
    rewrite <- (Z.mod_add _ 1) by lia. rewrite Z.mod_small; lia.
Qed.

Lemma shl1_small (b : Z) : 0 <= b < exact -> shl1 b = 2 ^ b.
Proof.
  intros H. pose proof width_bounds as Hw. unfold shl1, lshift.
  destruct (Z.ltb_spec b width); [|lia].
  rewrite Z.shiftl_mul_pow2, Z.mul_1_l by lia.
  apply wrap_small. split; [apply Z.lt_le_incl, pow2_pos; lia|].
  apply Z.pow_lt_mono_r; lia.
Qed.

(** At 32 bits of year or more the constructor allocates no year. *)
Lemma num_years_0 (yb : Z) : 32 <= yb -> to_u32 (shl1 yb) = 0.
Proof.
  intros H. unfold shl1, lshift, to_u32.
  destruct (Z.ltb_spec yb width); [|reflexivity].
  rewrite Z.shiftl_mul_pow2, Z.mul_1_l by lia.
  unfold wrap, width in *. destruct np; [|lia].
  unfold int64.
  replace ((2 ^ yb + 2 ^ 63) mod 2 ^ 64 - 2 ^ 63)
    with ((2 ^ yb + 2 ^ 63) mod 2 ^ 64 + (- 2 ^ 31) * 2 ^ 32) by lia.
  rewrite Z.mod_add by lia.
  rewrite (mod_pow2_mod _ 32 64) by lia.
  rewrite (pow2_split 32 yb), (pow2_split 32 63) by lia.
  rewrite <- Z.mul_add_distr_l, Z.mul_comm. apply Z.mod_mul. lia.
Qed.

Lemma operand_exact (k : Z) : 0 <= k < 2 ^ exact -> operand k = true.
Proof.
  unfold operand, exact. destruct np; intros H;
    apply andb_true_intro; split;
    try (apply Z.leb_le; lia); apply Z.ltb_lt; lia.
Qed.

(** ** Layout *)

Lemma layout_fields (m : UidMap) :
  layout_ok m ->
  year_bits m = time_bits m - day_bits m /\
  ssn_offset m = child_bits m + time_bits m /\
  child_offset m = time_bits m /\
  child_mask m = Z.ones (child_bits m) /\
  time_mask m = Z.ones (time_bits m) /\
  day_mask m = Z.ones (day_bits m).
Proof.
  intros [Hd Hp Hc Hdy Hs [Htw Hcw]].
  assert (Hy : year_bits m = to_u32 (time_bits m - day_bits m))
    by (rewrite Hd at 1; reflexivity).
  assert (Hso : ssn_offset m = to_u32 (child_bits m + time_bits m))
    by (rewrite Hd at 1; reflexivity).
  assert (Hco : child_offset m = time_bits m)
    by (rewrite Hd at 1; reflexivity).
  assert (Hcm : child_mask m = mask (child_bits m))
    by (rewrite Hd at 1; reflexivity).
  assert (Htm : time_mask m = mask (time_bits m))
    by (rewrite Hd at 1; reflexivity).
  assert (Hdm : day_mask m = mask (day_bits m))
    by (rewrite Hd at 1; reflexivity).
  unfold to_u32 in *.
  rewrite Z.mod_small in Hy by lia.
  rewrite Z.mod_small in Hso by lia.
  rewrite mask_ones in Hcm, Htm, Hdm by lia.
  tauto.
Qed.

Lemma layout_set_mapping (m : UidMap) (t : list (option child_list)) :
  layout_ok m -> layout_ok (set_mapping m t).
Proof.
  intros [Hd Hp Hc Hdy Hs Hw]. split; simpl; try assumption.
  rewrite Hd at 1. reflexivity.
Qed.

(** ** The codec in terms of division and remainder *)

Section Codec.
Variable m : UidMap.
Hypothesis Hlo : layout_ok m.

Let pb := pop_bits m.
Let tb := time_bits m.
Let cb := child_bits m.
Let db := day_bits m.

Lemma parse_uid_divmod (uid : Z) :
  parse_uid m uid =
    (to_u64 uid / 2 ^ (cb + tb),
     (to_u64 uid / 2 ^ tb) mod 2 ^ cb,
     to_u64 uid mod 2 ^ db,
     (to_u64 uid mod 2 ^ tb) / 2 ^ db).
Proof.
  destruct (layout_fields m Hlo) as (Hy & Hso & Hco & Hcm & Htm & Hdm).
  destruct Hlo as [_ Hp Hc Hd Hs _].
  unfold parse_uid. rewrite Hso, Hco, Hcm, Htm, Hdm.
  fold pb tb cb db in Hp, Hc, Hd, Hs |- *.
  rewrite !Z.land_ones, !Z.shiftr_div_pow2 by lia.
  rewrite (mod_pow2_mod _ db tb) by lia.
  reflexivity.
Qed.

(** The encoder adds the three components, each at its offset, in the
    type of [width] bits. *)
Lemma make_uid_sum (ssn time child : Z) :
  operand ssn = true -> operand time = true -> operand child = true ->
  make_uid m ssn time child =
    Some (Ok ((ssn * 2 ^ (cb + tb) + child * 2 ^ tb + time) mod 2 ^ width)).
Proof.
  intros Os Ot Oc.
  destruct (layout_fields m Hlo) as (Hy & Hso & Hco & Hcm & Htm & Hdm).
  destruct Hlo as [_ Hp Hc Hd Hs _].
  unfold make_uid. rewrite Os, Ot, Oc, Hso, Hco. simpl.
  fold pb tb cb db in Hp, Hc, Hd, Hs |- *.
  pose proof pow2_width_pos as Hw.
  do 2 f_equal. rewrite to_u64_wrap.
  rewrite <- Zplus_mod_idemp_l, wrap_mod, Zplus_mod_idemp_l.
  rewrite <- (Z.add_assoc (lshift _ _)), <- Zplus_mod_idemp_l.
  rewrite lshift_mod, Zplus_mod_idemp_l by lia.
  rewrite (Z.add_comm (ssn * _)), <- (Z.add_assoc (lshift _ _)).
  rewrite <- Zplus_mod_idemp_l, lshift_mod, Zplus_mod_idemp_l by lia.
  f_equal. lia.
Qed.

(** Below [2^exact] nothing is lost: the uid is the sum itself. *)
Lemma make_uid_exact (ssn time child : Z) :
  0 <= ssn -> 0 <= time -> 0 <= child ->
  ssn * 2 ^ (cb + tb) + child * 2 ^ tb + time < 2 ^ exact ->
  make_uid m ssn time child =
    Some (Ok (ssn * 2 ^ (cb + tb) + child * 2 ^ tb + time)).
Proof.
  intros Hs0 Ht0 Hc0 Hlt.
  destruct Hlo as [_ Hp Hc Hd Hs _].
  fold pb tb cb db in Hp, Hc, Hd, Hs.
  pose proof (pow2_pos (cb + tb) ltac:(lia)).
  pose proof (pow2_pos tb ltac:(lia)).
  pose proof width_bounds as Hw.
  assert (2 ^ exact <= 2 ^ width) by (apply Z.pow_le_mono_r; lia).
  rewrite make_uid_sum; try (apply operand_exact; nia).
  rewrite Z.mod_small; [reflexivity|nia].
Qed.

(** The uid is the sum of its decoded fields, each at its offset. *)
Lemma parse_uid_rebuild (uid ssn child day year : Z) :
  parse_uid m uid = (ssn, child, day, year) ->
  to_u64 uid = ssn * 2 ^ (cb + tb) + child * 2 ^ tb + year * 2 ^ db + day.
Proof.
  rewrite parse_uid_divmod. intros [= <- <- <- <-].
  destruct Hlo as [_ Hp Hc Hd Hs _].
  fold pb tb cb db in Hp, Hc, Hd, Hs.
  set (u := to_u64 uid).
  pose proof (pow2_pos tb ltac:(lia)).
  pose proof (pow2_pos cb ltac:(lia)).
  pose proof (pow2_pos db ltac:(lia)).
  pose proof (pow2_pos (cb + tb) ltac:(lia)).
  rewrite (Z_div_mod_eq_full u (2 ^ (cb + tb))) at 1.
  rewrite (mod_pow2_split u tb (cb + tb)) by lia.
  replace (cb + tb - tb) with cb by lia.
  rewrite (Z_div_mod_eq_full (u mod 2 ^ tb) (2 ^ db)) at 1.
  rewrite (mod_pow2_mod u db tb) by lia.
  lia.
Qed.

Lemma parse_uid_inj (u v : Z) :
  parse_uid m u = parse_uid m v -> to_u64 u = to_u64 v.
Proof.
  intros H. destruct (parse_uid m v) as [[[s c] d] y] eqn:Hv.
  rewrite (parse_uid_rebuild _ _ _ _ _ H).
  now rewrite (parse_uid_rebuild _ _ _ _ _ Hv).
Qed.

(** Every decoded field lies below the capacity of its bit field. *)
Lemma parse_uid_bounds (uid ssn child day year : Z) :
  parse_uid m uid = (ssn, child, day, year) ->
  0 <= ssn < 2 ^ (64 - (cb + tb)) /\
  0 <= child < 2 ^ cb /\
  0 <= day < 2 ^ db /\
  0 <= year < 2 ^ (tb - db).
Proof.
  rewrite parse_uid_divmod. intros [= <- <- <- <-].
  destruct Hlo as [_ Hp Hc Hd Hs _].
  fold pb tb cb db in Hp, Hc, Hd, Hs.
  pose proof (to_u64_range uid) as Hu. unfold is_u64 in Hu.
  set (u := to_u64 uid) in *.
  pose proof (pow2_pos tb ltac:(lia)).
  pose proof (pow2_pos cb ltac:(lia)).
  pose proof (pow2_pos db ltac:(lia)).
  pose proof (pow2_pos (cb + tb) ltac:(lia)).
  repeat split; try (apply Z.mod_pos_bound; lia);
    try (apply Z.div_pos; [|lia]; try apply Z.mod_pos_bound; lia).
  - apply Z.div_lt_upper_bound; [lia|].
    rewrite <- Z.pow_add_r by lia.
    replace (cb + tb + (64 - (cb + tb))) with 64 by lia. lia.
  - apply Z.div_lt_upper_bound; [lia|].
    rewrite <- Z.pow_add_r by lia.
    replace (db + (tb - db)) with tb by lia.
    apply Z.mod_pos_bound. lia.
Qed.

(** Decoding the sum of three components, whatever their size: what
    exceeds the time field is added to the child slot, what exceeds the
    child field is added to the serial number, and the serial number loses
    the bits above bit 63. *)
Lemma parse_sum (ssn time child : Z) :
  parse_uid m (ssn * 2 ^ (cb + tb) + child * 2 ^ tb + time) =
    ((ssn + (child + time / 2 ^ tb) / 2 ^ cb) mod 2 ^ (64 - (cb + tb)),
     (child + time / 2 ^ tb) mod 2 ^ cb,
     time mod 2 ^ db,
     (time mod 2 ^ tb) / 2 ^ db).
Proof.
  rewrite parse_uid_divmod.
  destruct Hlo as [_ Hp Hc Hd Hs _].
  fold pb tb cb db in Hp, Hc, Hd, Hs.
  pose proof (pow2_pos tb ltac:(lia)).
  pose proof (pow2_pos cb ltac:(lia)).
  pose proof (pow2_pos db ltac:(lia)).
  pose proof (pow2_pos (cb + tb) ltac:(lia)).
  set (N := ssn * 2 ^ (cb + tb) + child * 2 ^ tb + time).
  assert (Hu : to_u64 N = N mod 2 ^ 64) by reflexivity.
  rewrite Hu.
  assert (HNt : N / 2 ^ tb = ssn * 2 ^ cb + child + time / 2 ^ tb).
  { unfold N. rewrite Z.pow_add_r by lia.
    replace (ssn * (2 ^ cb * 2 ^ tb) + child * 2 ^ tb + time)
      with (time + (ssn * 2 ^ cb + child) * 2 ^ tb) by lia.
    rewrite Z.div_add by lia. lia. }
  assert (HNs : N / 2 ^ (cb + tb) = ssn + (child + time / 2 ^ tb) / 2 ^ cb).
  { rewrite (Z.add_comm cb tb), Z.pow_add_r by lia.
    rewrite <- Z.div_div by lia. rewrite HNt.
    replace (ssn * 2 ^ cb + child + time / 2 ^ tb)
      with ((child + time / 2 ^ tb) + ssn * 2 ^ cb) by lia.
    rewrite Z.div_add by lia. lia. }
  assert (HNm : N mod 2 ^ tb = time mod 2 ^ tb).
  { unfold N. rewrite Z.pow_add_r by lia.
    replace (ssn * (2 ^ cb * 2 ^ tb) + child * 2 ^ tb + time)
      with (time + (ssn * 2 ^ cb + child) * 2 ^ tb) by lia.
    apply Z.mod_add. lia. }
  rewrite (mod_pow2_div N (cb + tb) 64), HNs by lia.
  rewrite (mod_pow2_div N tb 64) by lia.
  rewrite (mod_pow2_mod _ cb (64 - tb)), HNt by lia.
  replace (ssn * 2 ^ cb + child + time / 2 ^ tb)
    with ((child + time / 2 ^ tb) + ssn * 2 ^ cb) by lia.
  rewrite Z.mod_add by lia.
  rewrite (mod_pow2_mod N db 64), (mod_pow2_mod N tb 64), HNm by lia.
  rewrite <- (mod_pow2_mod N db tb), HNm, (mod_pow2_mod time db tb) by lia.
  reflexivity.
Qed.

(** Components that fit their fields are decoded as they are. *)
Lemma parse_sum_fit (ssn time child : Z) :
  0 <= ssn < 2 ^ pb -> 0 <= time < 2 ^ tb -> 0 <= child < 2 ^ cb ->
  parse_uid m (ssn * 2 ^ (cb + tb) + child * 2 ^ tb + time)
    = (ssn, child, time mod 2 ^ db, time / 2 ^ db).
Proof.
  intros Bs Bt Bc. rewrite parse_sum.
  destruct Hlo as [_ Hp0 Hc0 Hd0 Hsum _].
  fold pb tb cb db in Hp0, Hc0, Hd0, Hsum.
  rewrite (Z.div_small time) by lia. rewrite Z.add_0_r.
  rewrite (Z.div_small child) by lia. rewrite Z.add_0_r.
  rewrite (Z.mod_small child) by lia.
  rewrite (Z.mod_small time (2 ^ tb)) by lia.
  assert (2 ^ pb <= 2 ^ (64 - (cb + tb)))
    by (apply Z.pow_le_mono_r; lia).
  rewrite (Z.mod_small ssn) by lia. reflexivity.
Qed.

(** The sum of components that fit their fields is below two to the sum of
    the widths. *)
Lemma sum_fit_lt (ssn time child : Z) :
  0 <= ssn < 2 ^ pb -> 0 <= time < 2 ^ tb -> 0 <= child < 2 ^ cb ->
  0 <= ssn * 2 ^ (cb + tb) + child * 2 ^ tb + time < 2 ^ (pb + cb + tb).
Proof.
  intros Bs Bt Bc. destruct Hlo as [_ Hp0 Hc0 Hd0 Hsum _].
  fold pb tb cb db in Hp0, Hc0, Hd0, Hsum.
  rewrite !Z.pow_add_r by lia.
  pose proof (pow2_pos tb ltac:(lia)).
  pose proof (pow2_pos cb ltac:(lia)).
  pose proof (pow2_pos pb ltac:(lia)).
  set (T := 2 ^ tb) in *. set (C := 2 ^ cb) in *. set (P := 2 ^ pb) in *.
  assert (child * T + time < C * T) by nia.
  assert (ssn * (C * T) + C * T <= P * (C * T)) by nia.
  nia.
Qed.

End Codec.

(** ** One level of the table *)

Lemma entry_lookup {A : Type} (l : list (option A)) (i : nat) (o : option A) :
  l !! i = Some o -> entry l i = o.
Proof. unfold entry. intros ->. now destruct o. Qed.

Lemma entry_insert_eq {A : Type} (l : list (option A)) (i : nat) (x : A) :
  (i < length l)%nat -> entry (<[i := Some x]> l) i = Some x.
Proof. intros H. unfold entry. now rewrite list_lookup_insert_eq. Qed.

Lemma entry_insert_ne {A : Type} (l : list (option A)) (i j : nat) (x : A) :
  i <> j -> entry (<[i := Some x]> l) j = entry l j.
Proof. intros H. unfold entry. now rewrite list_lookup_insert_ne. Qed.

Lemma entry_replicate {A : Type} (n i : nat) :
  entry (replicate n (@None A)) i = None.
Proof.
  unfold entry. destruct (replicate n None !! i) as [o|] eqn:E; [|easy].
  apply lookup_replicate in E as [-> _]. reflexivity.
Qed.

Lemma grows_refl (r : option row) : grows r r.
Proof. now left. Qed.

Section Level.
Context {A : Type}.
Variable old : option (list (option A)).
Variable fresh : list (option A).
Variable i : nat.
Variable sub0 : option A.
Variable sub' : A.
Variable rowf : A -> option row.

Hypothesis fresh_vacant : forall k, entry fresh k = None.
Hypothesis Hi : default fresh old !! i = Some sub0.

Let below (l : list (option A)) (j : nat) : option row :=
  match entry l j with None => None | Some x => rowf x end.

Lemma level_hit :
  below (<[i := Some sub']> (default fresh old)) i = rowf sub'.
Proof.
  unfold below. rewrite entry_insert_eq; [easy|].
  eapply lookup_lt_Some, Hi.
Qed.

Lemma level_frame (j : nat) :
  (j <> i \/
   grows (match sub0 with None => None | Some x => rowf x end) (rowf sub')) ->
  grows (match old with None => None | Some l0 => below l0 j end)
        (below (<[i := Some sub']> (default fresh old)) j).
Proof.
  intros H. destruct (decide (j = i)) as [->|Hne].
  - destruct H as [H|H]; [easy|]. rewrite level_hit.
    destruct old as [l0|]; simpl in *.
    + unfold below. now rewrite (entry_lookup _ _ _ Hi).
    + pose proof (fresh_vacant i) as Hv.
      rewrite (entry_lookup _ _ _ Hi) in Hv. now subst sub0.
  - unfold below. rewrite entry_insert_ne by congruence.
    destruct old as [l0|]; simpl; [apply grows_refl|].
    rewrite fresh_vacant. apply grows_refl.
Qed.
End Level.

(** ** Insert *)

Lemma parse_uid_to_u64 (m : UidMap) (uid : Z) :
  parse_uid m (to_u64 uid) = parse_uid m uid.
Proof.
  unfold parse_uid. replace (to_u64 (to_u64 uid)) with (to_u64 uid); [easy|].
  unfold to_u64. now rewrite Z.mod_mod by lia.
Qed.

Lemma coord_to_u64 (m : UidMap) (uid : Z) : coord m (to_u64 uid) = coord m uid.
Proof. unfold coord. now rewrite parse_uid_to_u64. Qed.

Lemma coord_set_mapping (m : UidMap) (t : list (option child_list)) (u : Z) :
  coord (set_mapping m t) u = coord m u.
Proof. reflexivity. Qed.

Lemma row_at_unfold (m : UidMap) (y c d s : nat) :
  row_at m (y, c, d, s) =
    match entry (mapping m) y with
    | None => None
    | Some cl => row_in_cl cl c d s
    end.
Proof. reflexivity. Qed.

Lemma ssn_array_at_Ok (m : UidMap) (at_day : option ssn_array)
    (arr : ssn_array) :
  ssn_array_at m at_day = Ok arr ->
  arr = default (fresh_ssn_array m) at_day.
Proof.
  destruct at_day as [a|]; simpl; [now intros [= ->]|].
  unfold new_ssn_array. destruct (_ <? _); [easy|now intros [= ->]].
Qed.

Lemma as_u64_Ok (k i : Z) : as_u64 k = Ok i -> i = to_u64 k.
Proof. unfold as_u64. destruct (_ && _); [now intros [= ->]|easy]. Qed.


(** A successful insert only replaces the table; it writes the row at the
    position of the uid and leaves every other row as it was, up to the
    empty rows of a newly allocated array. *)
Lemma add_individual_Ok (m m' : UidMap) (uid index : Z) :
  add_individual m uid index = (m', Ok tt) ->
  m' = set_mapping m (mapping m') /\
  row_at m' (coord m uid) = Some (to_u64 index, to_u64 uid) /\
  forall q : pos, q <> coord m uid -> grows (row_at m q) (row_at m' q).
Proof.
  unfold add_individual, coord. rewrite parse_uid_to_u64.
  destruct (parse_uid m uid) as [[[ssn child] day] year].
  destruct (mapping m !! Z.to_nat year) as [at_year|] eqn:Ey; [|easy].
  destruct (default (fresh_child_list m) at_year !! Z.to_nat child)
    as [at_child|] eqn:Ec; [|easy].
  destruct (default (fresh_day_list m) at_child !! Z.to_nat day)
    as [at_day|] eqn:Ed; [|easy].
  destruct (ssn_array_at m at_day) as [arr0|e] eqn:Ea; [|easy].
  apply ssn_array_at_Ok in Ea as ->.
  destruct (default (fresh_ssn_array m) at_day !! Z.to_nat ssn)
    as [r0|] eqn:Es; [|easy].
  destruct (as_u64 index) as [i|e] eqn:Ei; [|easy].
  apply as_u64_Ok in Ei as ->.
  intros [= <-]. split; [reflexivity|].
  set (y := Z.to_nat year) in *. set (c := Z.to_nat child) in *.
  set (d := Z.to_nat day) in *. set (s := Z.to_nat ssn) in *.
  set (arr := default (fresh_ssn_array m) at_day) in *.
  set (arr' := <[s := (to_u64 index, to_u64 uid)]> arr).
  assert (Ey' : default [] (Some (mapping m)) !! y = Some at_year) by exact Ey.
  split.
  - rewrite row_at_unfold. simpl mapping.
    rewrite (level_hit (Some (mapping m)) [] y at_year _
               (fun cl => row_in_cl cl c d s) Ey').
    unfold row_in_cl.
    rewrite (level_hit at_year (fresh_child_list m) c at_child _
               (fun dl => row_in_dl dl d s) Ec).
    unfold row_in_dl. rewrite entry_insert_eq by (eapply lookup_lt_Some, Ed).
    apply list_lookup_insert_eq. eapply lookup_lt_Some, Es.
  - intros [[[y' c'] d'] s'] Hq.
    rewrite !row_at_unfold. simpl mapping.
    apply (level_frame (Some (mapping m)) [] y at_year _
             (fun cl => row_in_cl cl c' d' s')); [easy|exact Ey'|].
    destruct (decide (y' = y)) as [->|]; [right|now left].
    apply (level_frame at_year (fresh_child_list m) c at_child _
             (fun dl => row_in_dl dl d' s'));
      [intros; apply entry_replicate|exact Ec|].
    destruct (decide (c' = c)) as [->|]; [right|now left].
    unfold row_in_dl at 2.
    change (match at_child with
            | Some x => row_in_dl x d' s'
            | None => None
            end)
      with (match at_child with
            | Some l0 =>
              match entry l0 d' with None => None | Some a => a !! s' end
            | None => None
            end).
    apply (level_frame at_child (fresh_day_list m) d at_day _
             (fun a : ssn_array => a !! s'));
      [intros; apply entry_replicate|exact Ed|].
    destruct (decide (d' = d)) as [->|]; [right|now left].
    assert (Hs : s' <> s) by congruence.
    unfold arr'. rewrite list_lookup_insert_ne by congruence.
    destruct at_day as [a|]; [apply grows_refl|].
    subst arr. simpl. unfold fresh_ssn_array.
    destruct (replicate _ _ !! s') as [r|] eqn:E; [|apply grows_refl].
    apply lookup_replicate in E as [-> _]. now right.
Qed.

Lemma add_individual_layout (m m' : UidMap) (uid index : Z) (o : outcome unit) :
  add_individual m uid index = (m', o) -> m' = set_mapping m (mapping m').
Proof.
  unfold add_individual.
  destruct (parse_uid m (to_u64 uid)) as [[[ssn child] day] year].
  destruct (mapping m !! _) as [at_year|]; [|intros [= <- _]; now destruct m].
  destruct (default _ at_year !! _) as [at_child|]; [|now intros [= <- _]].
  destruct (default _ at_child !! _) as [at_day|]; [|now intros [= <- _]].
  destruct (ssn_array_at m at_day) as [arr|e]; [|now intros [= <- _]].
  destruct (arr !! _); [|now intros [= <- _]].
  destruct (as_u64 index); now intros [= <- _].
Qed.

Lemma add_individual_coherent (m m' : UidMap) (uid index : Z) :
  coherent m -> add_individual m uid index = (m', Ok tt) -> coherent m'.
Proof.
  intros Hc Hadd p i u Hrow Hi.
  destruct (add_individual_Ok _ _ _ _ Hadd) as (Hm & Hhit & Hframe).
  rewrite Hm, coord_set_mapping.
  destruct (decide (p = coord m uid)) as [->|Hne].
  - rewrite Hhit in Hrow. injection Hrow as <- <-.
    split; [apply coord_to_u64 | apply to_u64_range].
  - destruct (Hframe p Hne) as [E|[_ E]]; rewrite <- ?E in Hrow.
    + now apply (Hc p i u).
    + rewrite E in Hrow. injection Hrow as <- _. now destruct Hi.
Qed.

Lemma coord_inj (m : UidMap) (u v : Z) :
  layout_ok m -> coord m u = coord m v -> to_u64 u = to_u64 v.
Proof.
  intros Hlo H. apply (parse_uid_inj m Hlo). unfold coord in H.
  destruct (parse_uid m u) as [[[s c] d] y] eqn:Eu.
  destruct (parse_uid m v) as [[[s' c'] d'] y'] eqn:Ev.
  pose proof (parse_uid_bounds m Hlo _ _ _ _ _ Eu).
  pose proof (parse_uid_bounds m Hlo _ _ _ _ _ Ev).
  injection H as Hy Hc Hd Hs.
  apply Z2Nat.inj in Hy, Hc, Hd, Hs; try lia. congruence.
Qed.

(** The binding of every uid after a successful insert. *)
Lemma binding_add (m m' : UidMap) (uid index u : Z) :
  layout_ok m -> add_individual m uid index = (m', Ok tt) -> is_u64 u ->
  binding m' u =
    if to_u64 uid =? u
    then (if to_u64 index =? sentinel then None else Some (to_u64 index))
    else binding m u.
Proof.
  intros Hlo Hadd Hu.
  destruct (add_individual_Ok _ _ _ _ Hadd) as (Hm & Hhit & Hframe).
  assert (Hc : coord m' u = coord m u) by (now rewrite Hm).
  unfold binding. rewrite Hc.
  destruct (Z.eqb_spec (to_u64 uid) u) as [E|E].
  - rewrite <- E, coord_to_u64, Hhit. reflexivity.
  - assert (Hne : coord m u <> coord m uid).
    { intros H. apply (coord_inj m _ _ Hlo) in H.
      rewrite (to_u64_id u Hu) in H. congruence. }
    destruct (Hframe _ Hne) as [->|[-> ->]]; reflexivity.
Qed.

(** ** Lookup *)

Lemma get_index_row (m : UidMap) (uid : Z) (r : row) :
  row_at m (coord m uid) = Some r -> get_index m uid = (m, Ok (fst r)).
Proof.
  unfold get_index, coord. rewrite parse_uid_to_u64.
  destruct (parse_uid m uid) as [[[ssn child] day] year]. simpl.
  unfold entry.
  destruct (mapping m !! _) as [[cl|]|]; [|easy..].
  destruct (cl !! _) as [[dl|]|]; [|easy..].
  destruct (dl !! _) as [[arr|]|]; [|easy..].
  now intros ->.
Qed.

(** Lookup reads the row at the position of the uid; without such a row it
    raises. *)
Lemma get_index_cases (m : UidMap) (uid : Z) :
  match row_at m (coord m uid) with
  | Some r => get_index m uid = (m, Ok (fst r))
  | None => get_index m uid = (m, Raise IndexError) \/
            get_index m uid = (m, Raise TypeError) \/
            get_index m uid = (m, Raise OverflowError)
  end.
Proof.
  destruct (row_at m (coord m uid)) as [r|] eqn:E;
    [now apply get_index_row|].
  revert E. unfold get_index, coord. rewrite parse_uid_to_u64.
  destruct (parse_uid m uid) as [[[ssn child] day] year]. simpl.
  unfold entry.
  destruct (mapping m !! _) as [[cl|]|]; [|auto..].
  destruct (cl !! _) as [[dl|]|]; [|auto..].
  destruct (dl !! _) as [[arr|]|]; [|auto..].
  intros ->. unfold subscript_error. destruct (_ <? _); auto.
Qed.

(** ** Runs of inserts *)

Lemma add_all_inv (P : UidMap -> Prop) (m m' : UidMap) (ops : list (Z * Z)) :
  (forall m1 m2 uid index,
      P m1 -> add_individual m1 uid index = (m2, Ok tt) -> P m2) ->
  P m -> add_all m ops = (m', Ok tt) -> P m'.
Proof.
  intros Hstep. revert m. induction ops as [|[uid index] ops IH]; intros m Hm.
  - now intros [= <-].
  - simpl. destruct (add_individual m uid index) as [m1 [[]|e]] eqn:E; [|easy].
    apply IH. eapply Hstep; eauto.
Qed.

Lemma add_individual_layout_ok (m m' : UidMap) (uid index : Z)
    (o : outcome unit) :
  layout_ok m -> add_individual m uid index = (m', o) -> layout_ok m'.
Proof.
  intros Hlo H. rewrite (add_individual_layout _ _ _ _ _ H).
  now apply layout_set_mapping.
Qed.

Lemma add_all_layout_ok (m m' : UidMap) (ops : list (Z * Z)) :
  layout_ok m -> add_all m ops = (m', Ok tt) -> layout_ok m'.
Proof.
  apply add_all_inv. intros. eapply add_individual_layout_ok; eauto.
Qed.

Lemma add_all_coherent (m m' : UidMap) (ops : list (Z * Z)) :
  coherent m -> add_all m ops = (m', Ok tt) -> coherent m'.
Proof.
  apply add_all_inv. intros. eapply add_individual_coherent; eauto.
Qed.

Lemma vacant_coherent (m : UidMap) : vacant m -> coherent m.
Proof. intros Hv p i u H. now rewrite Hv in H. Qed.

Lemma vacant_binding (m : UidMap) (u : Z) : vacant m -> binding m u = None.
Proof. intros Hv. unfold binding. now rewrite Hv. Qed.

(** The binding of a uid after a run is the one of its last insert. *)
Lemma binding_add_all (m m' : UidMap) (ops : list (Z * Z)) (u : Z) :
  layout_ok m -> add_all m ops = (m', Ok tt) -> is_u64 u ->
  binding m' u =
    match last_insert ops u with
    | Some i => if i =? sentinel then None else Some i
    | None => binding m u
    end.
Proof.
  intros Hlo Hrun Hu. revert m Hlo Hrun.
  induction ops as [|[uid index] ops IH]; intros m Hlo.
  - now intros [= <-].
  - simpl. destruct (add_individual m uid index) as [m1 [[]|e]] eqn:E; [|easy].
    intros Hrun.
    rewrite (IH m1 (add_individual_layout_ok _ _ _ _ _ Hlo E) Hrun).
    destruct (last_insert ops u); [reflexivity|].
    rewrite (binding_add _ _ _ _ _ Hlo E Hu).
    now destruct (to_u64 uid =? u).
Qed.

(** ** Enumeration with positions *)

Section Iflat.
Context {A B : Type}.

Lemma iflat_cons (f : nat -> A -> list B) (x : A) (l : list A) :
  iflat f (x :: l) = f 0%nat x ++ iflat (f ∘ S) l.
Proof. unfold iflat. now rewrite imap_cons. Qed.

Lemma elem_of_iflat (f : nat -> A -> list B) (l : list A) (b : B) :
  b ∈ iflat f l <-> exists i x, l !! i = Some x /\ b ∈ f i x.
Proof.
  unfold iflat. rewrite list_elem_of_join. split.
  - intros (l' & Hb & Hl').
    apply elem_of_lookup_imap in Hl' as (i & x & -> & Hx). eauto.
  - intros (i & x & Hx & Hb). exists (f i x). split; [assumption|].
    apply elem_of_lookup_imap. eauto.
Qed.

(** Pieces that are sorted, and ordered like their indices, concatenate
    to a sorted list. *)
Lemma iflat_sorted (R : relation B) (f : nat -> A -> list B) (l : list A) :
  (forall i x, l !! i = Some x -> StronglySorted R (f i x)) ->
  (forall i j x y a b, (i < j)%nat -> l !! i = Some x -> l !! j = Some y ->
     a ∈ f i x -> b ∈ f j y -> R a b) ->
  StronglySorted R (iflat f l).
Proof.
  revert f. induction l as [|x l IH]; intros f Hs Hc.
  - constructor.
  - rewrite iflat_cons. apply StronglySorted_app. split; [|split].
    + intros a b Ha Hb. apply elem_of_iflat in Hb as (j & y & Hy & Hb).
      apply (Hc 0%nat (S j) x y); [lia|reflexivity|exact Hy|exact Ha|exact Hb].
    + now apply (Hs 0%nat x).
    + apply IH.
      * intros i y Hy. now apply (Hs (S i)).
      * intros i j y z a b Hij Hy Hz. apply (Hc (S i) (S j)); [lia|easy|easy].
Qed.

Lemma flat_map_iflat {C : Type} (g : A -> list C) (h : B -> C)
    (f : nat -> A -> list B) (l : list A) :
  (forall i x, l !! i = Some x -> g x = h <$> f i x) ->
  flat_map g l = h <$> iflat f l.
Proof.
  revert f. induction l as [|x l IH]; intros f H; [reflexivity|].
  rewrite iflat_cons, fmap_app. simpl.
  rewrite (H 0%nat x eq_refl). f_equal.
  apply IH. intros i y Hy. now apply (H (S i)).
Qed.
End Iflat.

Section Ieach.
Context {A B : Type}.

Lemma elem_of_ieach (body : nat -> A -> list B) (l : list (option A)) (b : B) :
  b ∈ ieach body l <-> exists i x, entry l i = Some x /\ b ∈ body i x.
Proof.
  unfold ieach. rewrite elem_of_iflat. unfold entry. split.
  - intros (i & [x|] & Hi & Hb); [|now apply elem_of_nil in Hb].
    exists i, x. now rewrite Hi.
  - intros (i & x & Hi & Hb). exists i, (Some x).
    destruct (l !! i) as [[x'|]|]; [|easy..]. now injection Hi as ->.
Qed.

Lemma ieach_sorted (R : relation B) (body : nat -> A -> list B)
    (l : list (option A)) :
  (forall i x, entry l i = Some x -> StronglySorted R (body i x)) ->
  (forall i j x y a b, (i < j)%nat -> entry l i = Some x ->
     entry l j = Some y -> a ∈ body i x -> b ∈ body j y -> R a b) ->
  StronglySorted R (ieach body l).
Proof.
  intros Hs Hc. apply iflat_sorted.
  - intros i [x|] Hi; [|constructor].
    apply (Hs i). now rewrite (entry_lookup _ _ _ Hi).
  - intros i j [x|] [y|] a b Hij Hi Hj Ha Hb;
      try (now apply elem_of_nil in Ha); try (now apply elem_of_nil in Hb).
    apply (Hc i j x y); try assumption.
    + now rewrite (entry_lookup _ _ _ Hi).
    + now rewrite (entry_lookup _ _ _ Hj).
Qed.

Lemma each_ieach {C : Type} (g : A -> list C) (h : B -> C)
    (body : nat -> A -> list B) (l : list (option A)) :
  (forall i x, entry l i = Some x -> g x = h <$> body i x) ->
  each g l = h <$> ieach body l.
Proof.
  intros H. apply flat_map_iflat. intros i [x|] Hi; [|reflexivity].
  apply (H i). now rewrite (entry_lookup _ _ _ Hi).
Qed.
End Ieach.

Lemma ssn_uids_flat_map (a : list (Z * Z)) :
  ssn_uids a =
    flat_map (fun r => if fst r =? sentinel then [] else [snd r]) a.
Proof.
  induction a as [|[i u] a IH]; [reflexivity|]. simpl.
  rewrite IH. now destruct (i =? sentinel).
Qed.

Lemma ssn_uids_occ (y c d : nat) (a : list (Z * Z)) :
  ssn_uids a = snd <$> occ_ssn y c d a.
Proof.
  rewrite ssn_uids_flat_map. apply flat_map_iflat.
  intros s r _. now destruct (fst r =? sentinel).
Qed.

(** The uids yielded are those of the occupied rows, in the same order. *)
Lemma uids_occupied (m : UidMap) : snd (uids m) = snd <$> occupied m.
Proof.
  unfold uids, occupied. simpl.
  apply each_ieach. intros y cl _.
  apply each_ieach. intros c dl _.
  apply each_ieach. intros d a _.
  apply ssn_uids_occ.
Qed.

Lemma elem_of_occ_ssn (y c d : nat) (a : list (Z * Z)) (p : pos) (u : Z) :
  (p, u) ∈ occ_ssn y c d a <->
  exists s i, p = (y, c, d, s) /\ a !! s = Some (i, u) /\ i <> sentinel.
Proof.
  unfold occ_ssn. rewrite elem_of_iflat. split.
  - intros (s & [i v] & Hs & H). simpl in H.
    destruct (Z.eqb_spec i sentinel); [now apply elem_of_nil in H|].
    apply list_elem_of_singleton in H. injection H as -> ->. eauto.
  - intros (s & i & -> & Hs & Hi). exists s, (i, u). split; [easy|].
    simpl. destruct (Z.eqb_spec i sentinel); [easy|].
    now apply list_elem_of_singleton.
Qed.

Lemma elem_of_occ_day (y c : nat) (dl : list (option (list (Z * Z))))
    (p : pos) (u : Z) :
  (p, u) ∈ occ_day y c dl <->
  exists d s i, p = (y, c, d, s) /\ row_in_dl dl d s = Some (i, u) /\
                i <> sentinel.
Proof.
  unfold occ_day, row_in_dl. rewrite elem_of_ieach. split.
  - intros (d & a & Hd & H). apply elem_of_occ_ssn in H as (s & i & -> & Hs & Hi).
    exists d, s, i. now rewrite Hd.
  - intros (d & s & i & -> & H & Hi).
    destruct (entry dl d) as [a|] eqn:Hd; [|easy].
    exists d, a. split; [easy|]. apply elem_of_occ_ssn. eauto.
Qed.

Lemma elem_of_occ_child (y : nat)
    (cl : list (option (list (option (list (Z * Z)))))) (p : pos) (u : Z) :
  (p, u) ∈ occ_child y cl <->
  exists c d s i, p = (y, c, d, s) /\ row_in_cl cl c d s = Some (i, u) /\
                  i <> sentinel.
Proof.
  unfold occ_child, row_in_cl. rewrite elem_of_ieach. split.
  - intros (c & dl & Hc & H).
    apply elem_of_occ_day in H as (d & s & i & -> & Hs & Hi).
    exists c, d, s, i. now rewrite Hc.
  - intros (c & d & s & i & -> & H & Hi).
    destruct (entry cl c) as [dl|] eqn:Hc; [|easy].
    exists c, dl. split; [easy|]. apply elem_of_occ_day. eauto 6.
Qed.

(** The positions enumerated are exactly those of the occupied rows. *)
Lemma elem_of_occupied (m : UidMap) (p : pos) (u : Z) :
  (p, u) ∈ occupied m <->
  exists i, row_at m p = Some (i, u) /\ i <> sentinel.
Proof.
  unfold occupied. rewrite elem_of_ieach. split.
  - intros (y & cl & Hy & H).
    apply elem_of_occ_child in H as (c & d & s & i & -> & Hs & Hi).
    exists i. rewrite row_at_unfold, Hy. easy.
  - intros (i & H & Hi). destruct p as [[[y c] d] s].
    rewrite row_at_unfold in H.
    destruct (entry (mapping m) y) as [cl|] eqn:Hy; [|easy].
    exists y, cl. split; [easy|]. apply elem_of_occ_child. eauto 7.
Qed.

Lemma pos_lt_irrefl (p : pos) : ~ pos_lt p p.
Proof. destruct p as [[[y c] d] s]. unfold pos_lt. lia. Qed.

Lemma occ_ssn_sorted (y c d : nat) (a : list (Z * Z)) :
  StronglySorted entry_lt (occ_ssn y c d a).
Proof.
  apply iflat_sorted.
  - intros s r _. destruct (fst r =? sentinel); repeat constructor.
  - intros s s' r r' [p u] [q v] Hlt _ _ Ha Hb.
    destruct (fst r =? sentinel); [now apply elem_of_nil in Ha|].
    destruct (fst r' =? sentinel); [now apply elem_of_nil in Hb|].
    apply list_elem_of_singleton in Ha, Hb.
    injection Ha as -> _. injection Hb as -> _.
    unfold entry_lt, pos_lt. simpl. lia.
Qed.

Lemma occ_day_sorted (y c : nat) (dl : list (option (list (Z * Z)))) :
  StronglySorted entry_lt (occ_day y c dl).
Proof.
  apply ieach_sorted.
  - intros. apply occ_ssn_sorted.
  - intros d d' a a' [p u] [q v] Hlt _ _ Ha Hb.
    apply elem_of_occ_ssn in Ha as (s & i & -> & _).
    apply elem_of_occ_ssn in Hb as (s' & i' & -> & _).
    unfold entry_lt, pos_lt. simpl. lia.
Qed.

Lemma occ_child_sorted (y : nat)
    (cl : list (option (list (option (list (Z * Z)))))) :
  StronglySorted entry_lt (occ_child y cl).
Proof.
  apply ieach_sorted.
  - intros. apply occ_day_sorted.
  - intros c c' dl dl' [p u] [q v] Hlt _ _ Ha Hb.
    apply elem_of_occ_day in Ha as (d & s & i & -> & _).
    apply elem_of_occ_day in Hb as (d' & s' & i' & -> & _).
    unfold entry_lt, pos_lt. simpl. lia.
Qed.

(** The occupied rows come in increasing order of position. *)
Lemma occupied_sorted (m : UidMap) : StronglySorted entry_lt (occupied m).
Proof.
  apply ieach_sorted.
  - intros. apply occ_child_sorted.
  - intros y y' cl cl' [p u] [q v] Hlt _ _ Ha Hb.
    apply elem_of_occ_child in Ha as (c & d & s & i & -> & _).
    apply elem_of_occ_child in Hb as (c' & d' & s' & i' & -> & _).
    unfold entry_lt, pos_lt. simpl. lia.
Qed.

Lemma sorted_irrefl_NoDup {A : Type} (R : relation A) (l : list A) :
  (forall x, ~ R x x) -> StronglySorted R l -> NoDup l.
Proof.
  intros Hirr. induction 1 as [|x l Hs IH Hall]; constructor; [|exact IH].
  intros Hin. rewrite Forall_forall in Hall.
  apply (Hirr x), Hall, Hin.
Qed.

Lemma occupied_NoDup (m : UidMap) : NoDup (occupied m).
Proof.
  apply (sorted_irrefl_NoDup entry_lt); [|apply occupied_sorted].
  intros [p u]. apply pos_lt_irrefl.
Qed.

(** In a coherent table no uid is yielded twice. *)
Lemma uids_NoDup (m : UidMap) : coherent m -> NoDup (snd (uids m)).
Proof.
  intros Hc. rewrite uids_occupied.
  apply NoDup_fmap_2_strong; [|apply occupied_NoDup].
  intros [p u] [q v] Hp Hq. simpl. intros <-.
  apply elem_of_occupied in Hp as (i & Hi & Hni).
  apply elem_of_occupied in Hq as (j & Hj & Hnj).
  destruct (Hc p i u Hi Hni) as [<- _].
  destruct (Hc q j u Hj Hnj) as [<- _]. reflexivity.
Qed.

(** In a coherent table the uids yielded are the bound ones. *)
Lemma elem_of_uids (m : UidMap) (u : Z) :
  layout_ok m -> coherent m ->
  (u ∈ snd (uids m) <-> is_u64 u /\ binding m u <> None).
Proof.
  intros Hlo Hc. rewrite uids_occupied, list_elem_of_fmap. split.
  - intros ([p v] & -> & H). simpl.
    apply elem_of_occupied in H as (i & Hi & Hni).
    destruct (Hc p i v Hi Hni) as [<- Hu]. split; [exact Hu|].
    unfold binding. rewrite Hi.
    destruct (Z.eqb_spec i sentinel); [contradiction|discriminate].
  - intros [Hu Hb]. unfold binding in Hb.
    destruct (row_at m (coord m u)) as [[i v]|] eqn:E; [|easy].
    destruct (Z.eqb_spec i sentinel) as [|Hni]; [easy|].
    destruct (Hc _ i v E Hni) as [Hcv Hv].
    apply (coord_inj m _ _ Hlo) in Hcv.
    rewrite (to_u64_id v Hv), (to_u64_id u Hu) in Hcv. subst v.
    exists (coord m u, u). split; [reflexivity|].
    apply elem_of_occupied. eauto.
Qed.

(** ** Shape of the table *)

Lemma level_ok_fresh {A : Type} (n : nat) (P : A -> Prop) :
  level_ok n P (replicate n None).
Proof.
  split; [apply length_replicate|].
  intros j x H. now rewrite entry_replicate in H.
Qed.

Lemma level_ok_insert {A : Type} (n : nat) (P : A -> Prop)
    (l : list (option A)) (i : nat) (x : A) :
  level_ok n P l -> P x -> level_ok n P (<[i := Some x]> l).
Proof.
  intros [Hlen Hent] Hx. split; [now rewrite length_insert|].
  intros j z. destruct (decide (i = j)) as [<-|Hne].
  - destruct (decide (i < length l)%nat) as [Hlt|Hge].
    + rewrite entry_insert_eq by exact Hlt. now intros [= <-].
    + rewrite list_insert_ge by lia. apply Hent.
  - rewrite entry_insert_ne by exact Hne. apply Hent.
Qed.

Lemma level_ok_default {A : Type} (n : nat) (P : A -> Prop) (Q : A -> Prop)
    (l : list (option A)) (i : nat) (o : option A) (fresh : A) :
  level_ok n P l -> l !! i = Some o -> P fresh -> P (default fresh o).
Proof.
  intros [_ Hent] Hi Hf. destruct o as [x|]; [|exact Hf].
  apply (Hent i). now apply entry_lookup.
Qed.

Lemma shape_fresh_child_list (m : UidMap) : shape_cl m (fresh_child_list m).
Proof. apply level_ok_fresh. Qed.

Lemma shape_fresh_day_list (m : UidMap) : shape_dl m (fresh_day_list m).
Proof. apply level_ok_fresh. Qed.

Lemma shape_fresh_ssn_array (m : UidMap) : shape_arr m (fresh_ssn_array m).
Proof. apply length_replicate. Qed.

Lemma shape_ok_set_mapping (m : UidMap) (t : list (option child_list)) :
  level_ok (Z.to_nat (to_u32 (shl1 (year_bits m)))) (shape_cl m) t ->
  shape_ok (set_mapping m t).
Proof. intros H. exact H. Qed.

(** Insert keeps the shape, whether it returns or raises. *)
Lemma add_individual_shape (m m' : UidMap) (uid index : Z) (o : outcome unit) :
  shape_ok m -> add_individual m uid index = (m', o) -> shape_ok m'.
Proof.
  intros Hs. unfold add_individual.
  destruct (parse_uid m (to_u64 uid)) as [[[ssn child] day] year].
  destruct (mapping m !! _) as [at_year|] eqn:Ey; [|now intros [= <- _]].
  assert (Hcl : shape_cl m (default (fresh_child_list m) at_year)).
  { eapply (level_ok_default _ _ (shape_cl m)); eauto using shape_fresh_child_list. }
  destruct (default _ at_year !! _) as [at_child|] eqn:Ec.
  2:{ intros [= <- _]. apply shape_ok_set_mapping.
      now apply level_ok_insert. }
  assert (Hdl : shape_dl m (default (fresh_day_list m) at_child)).
  { eapply (level_ok_default _ _ (shape_dl m)); eauto using shape_fresh_day_list. }
  destruct (default _ at_child !! _) as [at_day|] eqn:Ed.
  2:{ intros [= <- _]. apply shape_ok_set_mapping.
      apply level_ok_insert; [exact Hs|]. now apply level_ok_insert. }
  assert (Harr : shape_arr m (default (fresh_ssn_array m) at_day)).
  { eapply (level_ok_default _ _ (shape_arr m)); eauto using shape_fresh_ssn_array. }
  destruct (ssn_array_at m at_day) as [arr0|e] eqn:Ea.
  2:{ intros [= <- _]. apply shape_ok_set_mapping.
      apply level_ok_insert; [exact Hs|]. now apply level_ok_insert. }
  apply ssn_array_at_Ok in Ea as ->.
  assert (Hst : forall a, shape_arr m a ->
            shape_ok (set_mapping m
              (<[Z.to_nat year :=
                   Some (<[Z.to_nat child :=
                             Some (<[Z.to_nat day := Some a]>
                                     (default (fresh_day_list m) at_child))]>
                           (default (fresh_child_list m) at_year))]>
                 (mapping m)))).
  { intros a Ha. apply shape_ok_set_mapping.
    apply level_ok_insert; [exact Hs|].
    apply level_ok_insert; [exact Hcl|].
    apply level_ok_insert; [exact Hdl|exact Ha]. }
  destruct (default _ at_day !! _) as [r0|] eqn:Es;
    [|intros [= <- _]; now apply Hst].
  destruct (as_u64 index) as [i|e]; intros [= <- _]; apply Hst;
    [|exact Harr].
  unfold shape_arr. now rewrite length_insert.
Qed.

Lemma add_all_shape (m m' : UidMap) (ops : list (Z * Z)) :
  shape_ok m -> add_all m ops = (m', Ok tt) -> shape_ok m'.
Proof.
  apply add_all_inv. intros. eapply add_individual_shape; eauto.
Qed.

(** ** The constructed table *)

Lemma of_bits_vacant (pb tb cb db : Z) : vacant (of_bits pb tb cb db).
Proof.
  intros [[[y c] d] s]. rewrite row_at_unfold. simpl.
  now rewrite entry_replicate.
Qed.

Lemma of_bits_shape (pb tb cb db : Z) : shape_ok (of_bits pb tb cb db).
Proof. apply level_ok_fresh. Qed.

Lemma of_bits_layout (pb tb cb db : Z) :
  0 <= pb -> 0 <= cb -> 0 <= db <= tb -> pb + tb + cb <= 64 ->
  tb <= width -> cb <= width ->
  layout_ok (of_bits pb tb cb db).
Proof. intros. split; simpl; try assumption; [reflexivity|now split]. Qed.

(** ** Positions are in range *)

Section InRange.
Variable m : UidMap.
Hypothesis Hlo : layout_ok m.
Hypothesis Hal : allocatable m.

Lemma coord_lt (uid ssn child day year : Z) :
  parse_uid m uid = (ssn, child, day, year) ->
  (Z.to_nat year < Z.to_nat (to_u32 (shl1 (year_bits m))))%nat /\
  (Z.to_nat child < Z.to_nat (shl1 (child_bits m)))%nat /\
  (Z.to_nat day < Z.to_nat (shl1 (day_bits m)))%nat.
Proof.
  intros Hp. pose proof (parse_uid_bounds m Hlo _ _ _ _ _ Hp) as (_ & Hc & Hd & Hy).
  destruct (layout_fields m Hlo) as (Hyb & _).
  destruct Hal as (Hy32 & Hc63 & Hd63 & _).
  destruct Hlo as [_ Hp0 Hc0 Hd0 Hs _].
  pose proof width_bounds as Hw.
  rewrite !shl1_small by lia.
  unfold to_u32. rewrite Hyb in *.
  assert (0 < 2 ^ (time_bits m - day_bits m) < 2 ^ 32).
  { split; [apply pow2_pos; lia|]. apply Z.pow_lt_mono_r; lia. }
  rewrite Z.mod_small by lia. lia.
Qed.

Lemma ssn_lt (ssn : Z) :
  0 <= ssn ->
  ((Z.to_nat ssn < Z.to_nat (shl1 (pop_bits m)))%nat <-> ssn < 2 ^ pop_bits m).
Proof.
  intros H. destruct Hal as (_ & _ & _ & Hp63).
  destruct Hlo as [_ Hp0 _ _ _ _].
  rewrite shl1_small by lia.
  pose proof (pow2_pos (pop_bits m) Hp0). lia.
Qed.
End InRange.

(** ** Outcomes on a well-shaped table *)

Section Shaped.
Variable m : UidMap.
Hypothesis Hlo : layout_ok m.
Hypothesis Hal : allocatable m.
Hypothesis Hsh : shape_ok m.

Lemma array_at_length (y c d : nat) (arr : list (Z * Z)) :
  array_at m y c d = Some arr ->
  length arr = Z.to_nat (shl1 (pop_bits m)).
Proof.
  unfold array_at.
  destruct (entry (mapping m) y) as [cl|] eqn:Ey; [|easy].
  destruct (entry cl c) as [dl|] eqn:Ec; [|easy].
  intros Ed. destruct Hsh as [_ H1].
  destruct (H1 _ _ Ey) as [_ H2]. destruct (H2 _ _ Ec) as [_ H3].
  exact (H3 _ _ Ed).
Qed.

(** Lookup on a well-shaped table: the year, the child slot and the day
    are always in range; an unallocated level is a [TypeError], a serial
    number beyond the array an [IndexError], or an [OverflowError] from
    [2^63] on. *)
Lemma get_index_shaped (uid ssn child day year : Z) :
  parse_uid m uid = (ssn, child, day, year) ->
  get_index m uid =
    (m, match array_at m (Z.to_nat year) (Z.to_nat child) (Z.to_nat day) with
        | None => Raise TypeError
        | Some arr =>
          match arr !! Z.to_nat ssn with
          | Some r => Ok (fst r)
          | None => Raise (subscript_error ssn)
          end
        end).
Proof.
  intros Hp. destruct (coord_lt m Hlo Hal _ _ _ _ _ Hp) as (Hy & Hc & Hd).
  unfold get_index, array_at, entry. rewrite parse_uid_to_u64, Hp.
  destruct Hsh as [Hlen H1].
  destruct (mapping m !! Z.to_nat year) as [[cl|]|] eqn:Ey; [|easy|].
  2:{ apply lookup_ge_None in Ey. lia. }
  destruct (H1 _ cl (entry_lookup _ _ _ Ey)) as [Hlc H2].
  destruct (cl !! Z.to_nat child) as [[dl|]|] eqn:Ec; [|easy|].
  2:{ apply lookup_ge_None in Ec. lia. }
  destruct (H2 _ dl (entry_lookup _ _ _ Ec)) as [Hld H3].
  destruct (dl !! Z.to_nat day) as [[arr|]|] eqn:Ed; [|easy|].
  2:{ apply lookup_ge_None in Ed. lia. }
  now destruct (arr !! Z.to_nat ssn).
Qed.

(** Insert on a well-shaped table: a serial number beyond the arrays is
    refused; otherwise the insert returns when the index converts to
    [uint64]. *)
Lemma add_individual_outcome (uid index ssn child day year : Z) :
  parse_uid m uid = (ssn, child, day, year) ->
  snd (add_individual m uid index) =
    if ssn <? 2 ^ pop_bits m
    then match as_u64 index with Ok _ => Ok tt | Raise e => Raise e end
    else Raise (subscript_error ssn).
Proof.
  intros Hp. destruct (coord_lt m Hlo Hal _ _ _ _ _ Hp) as (Hy & Hc & Hd).
  pose proof (parse_uid_bounds m Hlo _ _ _ _ _ Hp) as ([Hs0 _] & _).
  pose proof (ssn_lt m Hlo Hal ssn Hs0) as Hs.
  unfold add_individual. rewrite parse_uid_to_u64, Hp.
  destruct (mapping m !! Z.to_nat year) as [at_year|] eqn:Ey.
  2:{ apply lookup_ge_None in Ey. destruct Hsh as [Hlen _]. lia. }
  assert (Hcl : shape_cl m (default (fresh_child_list m) at_year)).
  { eapply (level_ok_default _ _ (shape_cl m)); eauto using shape_fresh_child_list. }
  destruct (default _ at_year !! Z.to_nat child) as [at_child|] eqn:Ec.
  2:{ apply lookup_ge_None in Ec. destruct Hcl as [Hlen _]. lia. }
  assert (Hdl : shape_dl m (default (fresh_day_list m) at_child)).
  { eapply (level_ok_default _ _ (shape_dl m)); eauto using shape_fresh_day_list. }
  destruct (default _ at_child !! Z.to_nat day) as [at_day|] eqn:Ed.
  2:{ apply lookup_ge_None in Ed. destruct Hdl as [Hlen _]. lia. }
  assert (Harr : shape_arr m (default (fresh_ssn_array m) at_day)).
  { eapply (level_ok_default _ _ (shape_arr m)); eauto using shape_fresh_ssn_array. }
  unfold shape_arr in Harr.
  assert (Ea : ssn_array_at m at_day
               = Ok (default (fresh_ssn_array m) at_day)).
  { destruct at_day as [a|]; [reflexivity|]. simpl. unfold new_ssn_array.
    destruct Hal as (_ & _ & _ & Hp63). destruct Hlo as [_ Hp0 _ _ _ _].
    rewrite shl1_small by lia.
    pose proof (pow2_pos (pop_bits m) Hp0).
    destruct (Z.ltb_spec (2 ^ pop_bits m) 0); [lia|reflexivity]. }
  rewrite Ea.
  destruct (default _ at_day !! Z.to_nat ssn) as [r0|] eqn:Es; simpl.
  - apply lookup_lt_Some in Es.
    destruct (Z.ltb_spec ssn (2 ^ pop_bits m)); [|lia].
    now destruct (as_u64 index).
  - apply lookup_ge_None in Es.
    destruct (Z.ltb_spec ssn (2 ^ pop_bits m)); [lia|reflexivity].
Qed.
End Shaped.
(** * The claims *)

Lemma small_map_layout : layout_ok small_map.
Proof. pose proof width_bounds. apply of_bits_layout; lia. Qed.

Lemma main_map_layout : layout_ok main_map.
Proof. pose proof width_bounds. apply of_bits_layout; lia. Qed.

Lemma long_map_layout : layout_ok long_map.
Proof. pose proof width_bounds. apply of_bits_layout; lia. Qed.

Lemma wide_map_layout : layout_ok wide_map.
Proof. pose proof width_bounds. apply of_bits_layout; lia. Qed.

Lemma tiny_map_layout : layout_ok tiny_map.
Proof. pose proof width_bounds. apply of_bits_layout; lia. Qed.

Lemma tiny_map_allocatable : allocatable tiny_map.
Proof.
  pose proof width_bounds. unfold allocatable. simpl.
  repeat split; try lia; vm_compute; reflexivity.
Qed.

Lemma small_map_allocatable : allocatable small_map.
Proof.
  pose proof width_bounds. unfold allocatable. simpl.
  repeat split; try lia; vm_compute; reflexivity.
Qed.

(** ** Insert then lookup *)

(** C1. Immediately after [add_individual m uid index] returns, for any uid
    and any 64-bit storage index, [get_index] of the same uid returns that
    index (and leaves the table as the insert left it). *)
Theorem insert_lookup_consistency (m m' : UidMap) (uid index : Z) :
  is_u64 index ->
  add_individual m uid index = (m', Ok tt) ->
  get_index m' uid = (m', Ok index).
Proof.
  intros Hi Hadd.
  destruct (add_individual_Ok _ _ _ _ Hadd) as (Hm & Hhit & _).
  assert (Hc : coord m' uid = coord m uid) by (now rewrite Hm).
  rewrite <- Hc in Hhit.
  rewrite (get_index_row _ _ _ Hhit). simpl. now rewrite to_u64_id.
Qed.

(** ** Codec *)

(** C6, amended. The encoder masks nothing. For non-negative components
    whose sum, each at its offset, is below [2^exact] ([2^32]; [2^63] with
    NumPy 1), it raises nothing and the uid is that sum. Decoding it, the
    part of the time above its width is added to the child slot and the
    part of the child slot above its width is added to the serial
    number. *)
Theorem encode_carries (m : UidMap) (ssn time child : Z) :
  layout_ok m ->
  0 <= ssn -> 0 <= time -> 0 <= child ->
  ssn * 2 ^ ssn_offset m + child * 2 ^ child_offset m + time < 2 ^ exact ->
  make_uid m ssn time child =
    Some (Ok (ssn * 2 ^ ssn_offset m + child * 2 ^ child_offset m + time)) /\
  parse_uid m (ssn * 2 ^ ssn_offset m + child * 2 ^ child_offset m + time) =
    (ssn + (child + time / 2 ^ time_bits m) / 2 ^ child_bits m,
     (child + time / 2 ^ time_bits m) mod 2 ^ child_bits m,
     time mod 2 ^ day_bits m,
     (time mod 2 ^ time_bits m) / 2 ^ day_bits m).
Proof.
  intros Hlo Hs0 Ht0 Hc0. destruct (layout_fields m Hlo) as (_ & -> & -> & _).
  intros Hlt. split; [now apply (make_uid_exact m Hlo)|].
  rewrite (parse_sum m Hlo). f_equal. f_equal. f_equal.
  destruct Hlo as [_ Hp Hc Hd Hsum _].
  set (tb := time_bits m) in *. set (cb := child_bits m) in *.
  pose proof (pow2_pos tb ltac:(lia)) as HT.
  pose proof (pow2_pos cb ltac:(lia)) as HC.
  pose proof (pow2_pos (cb + tb) ltac:(lia)) as HS.
  pose proof width_bounds as Hw.
  assert (H63 : 2 ^ exact <= 2 ^ 63) by (apply Z.pow_le_mono_r; lia).
  set (q := child + time / 2 ^ tb).
  assert (Hq0 : 0 <= time / 2 ^ tb) by (apply Z.div_pos; lia).
  assert (Hq1 : 2 ^ tb * (time / 2 ^ tb) <= time)
    by (apply Z.mul_div_le; lia).
  assert (Hr0 : 0 <= q / 2 ^ cb) by (apply Z.div_pos; lia).
  assert (Hr1 : 2 ^ cb * (q / 2 ^ cb) <= q) by (apply Z.mul_div_le; lia).
  apply Z.mod_small. split; [lia|].
  apply (Z.mul_lt_mono_pos_r (2 ^ (cb + tb))); [exact HS|].
  rewrite <- Z.pow_add_r by lia.
  replace (64 - (cb + tb) + (cb + tb)) with 64 by lia.
  rewrite Z.pow_add_r in * by lia.
  set (T := 2 ^ tb) in *. set (C := 2 ^ cb) in *.
  assert (E1 : q / C * (C * T) = C * (q / C) * T) by ring.
  assert (E2 : C * (q / C) * T <= q * T)
    by (apply Z.mul_le_mono_nonneg_r; lia).
  assert (E3 : q * T = child * T + T * (time / T)) by (unfold q; ring).
  assert (E4 : (ssn + q / C) * (C * T) = ssn * (C * T) + q / C * (C * T))
    by ring.
  lia.
Qed.

(** C9, amended. With a valid layout every uid decodes to a year below
    [2^yearBits], a child slot below [2^childBits], a day below
    [2^dayBits] and a serial number below [2^(64 - serialOffset)]; when
    the three widths sum to less than 64 some uid decodes to a serial
    number of [2^populationBits] or more. The year, the child slot and the
    day are below the lengths of levels 1 to 3 when these lengths are not
    truncated ([allocatable]); from 32 bits of year on, level 1 has no
    entry. *)
Theorem decode_bounds (m : UidMap) (uid ssn child day year : Z) :
  layout_ok m ->
  parse_uid m uid = (ssn, child, day, year) ->
  (0 <= year < 2 ^ year_bits m /\
   0 <= child < 2 ^ child_bits m /\
   0 <= day < 2 ^ day_bits m /\
   0 <= ssn < 2 ^ (64 - ssn_offset m)) /\
  (allocatable m ->
   (Z.to_nat year < Z.to_nat (to_u32 (shl1 (year_bits m))))%nat /\
   (Z.to_nat child < Z.to_nat (shl1 (child_bits m)))%nat /\
   (Z.to_nat day < Z.to_nat (shl1 (day_bits m)))%nat) /\
  (32 <= year_bits m -> Z.to_nat (to_u32 (shl1 (year_bits m))) = 0%nat) /\
  (pop_bits m + time_bits m + child_bits m < 64 ->
   exists u, is_u64 u /\
             2 ^ pop_bits m <= fst (fst (fst (parse_uid m u)))).
Proof.
  intros Hlo Hp.
  destruct (layout_fields m Hlo) as (Hyb & Hso & _).
  pose proof (parse_uid_bounds m Hlo _ _ _ _ _ Hp) as (Hs & Hc & Hd & Hy).
  split; [|split; [|split]].
  - rewrite Hyb, Hso. lia.
  - intros Hal. exact (coord_lt m Hlo Hal _ _ _ _ _ Hp).
  - intros H32. now rewrite num_years_0.
  - intros Hlt. destruct Hlo as [Hder Hp0 Hc0 Hd0 Hsum Hw].
    set (so := child_bits m + time_bits m).
    assert (Hu : is_u64 (2 ^ pop_bits m * 2 ^ so)).
    { unfold is_u64. rewrite <- Z.pow_add_r by lia. split.
      - apply Z.lt_le_incl, pow2_pos. lia.
      - apply Z.pow_lt_mono_r; lia. }
    exists (2 ^ pop_bits m * 2 ^ so). split; [exact Hu|].
    rewrite (parse_uid_divmod m (mk_layout_ok m Hder Hp0 Hc0 Hd0 Hsum Hw)).
    simpl. rewrite (to_u64_id _ Hu). fold so.
    rewrite Z.div_mul; [lia|].
    apply Z.neq_sym, Z.lt_neq, pow2_pos. lia.
Qed.

(** ** Enumeration *)

(** C8. [uids] yields the uid of every occupied row (index other than the
    sentinel), in increasing order of position: year, then child slot, then
    day, then serial number; entries that are not allocated contribute
    nothing, and the table after the call is the table before it. *)
Theorem enumeration_order_and_purity (m : UidMap) :
  fst (uids m) = m /\
  exists l : list (pos * Z),
    snd (uids m) = snd <$> l /\
    StronglySorted entry_lt l /\
    forall (p : pos) (u : Z),
      (p, u) ∈ l <-> exists i, row_at m p = Some (i, u) /\ i <> sentinel.
Proof.
  split; [reflexivity|]. exists (occupied m).
  split; [apply uids_occupied|].
  split; [apply occupied_sorted|].
  apply elem_of_occupied.
Qed.

Lemma last_insert_u64 (ops : list (Z * Z)) (u i : Z) :
  last_insert ops u = Some i -> is_u64 u /\ is_u64 i.
Proof.
  induction ops as [|[uid index] ops IH]; [easy|]. simpl.
  destruct (last_insert ops u) as [j|].
  - intros [= ->]. now apply IH.
  - destruct (Z.eqb_spec (to_u64 uid) u) as [<-|]; [|easy].
    intros [= <-]. split; apply to_u64_range.
Qed.

(** C3, amended. After a run of inserts that all return, on a table built
    with a valid layout and nothing allocated below level 1, [uids] yields
    exactly the uids whose most recent insert carried a storage index other
    than the sentinel, each once. *)
Theorem enumeration_complete (m0 m : UidMap) (ops : list (Z * Z)) :
  layout_ok m0 -> vacant m0 ->
  add_all m0 ops = (m, Ok tt) ->
  (forall u, u ∈ snd (uids m) <->
             exists i, last_insert ops u = Some i /\ i <> sentinel) /\
  NoDup (snd (uids m)).
Proof.
  intros Hlo Hv Hrun.
  pose proof (add_all_layout_ok _ _ _ Hlo Hrun) as Hlo'.
  pose proof (add_all_coherent _ _ _ (vacant_coherent _ Hv) Hrun) as Hc.
  split; [|now apply uids_NoDup].
  intros u. rewrite (elem_of_uids m u Hlo' Hc). split.
  - intros [Hu Hb]. rewrite (binding_add_all _ _ _ _ Hlo Hrun Hu) in Hb.
    rewrite (vacant_binding _ _ Hv) in Hb.
    destruct (last_insert ops u) as [i|]; [|easy].
    exists i. split; [reflexivity|].
    destruct (Z.eqb_spec i sentinel); congruence.
  - intros (i & Hi & Hni).
    destruct (last_insert_u64 _ _ _ Hi) as [Hu _]. split; [exact Hu|].
    rewrite (binding_add_all _ _ _ _ Hlo Hrun Hu), Hi.
    destruct (Z.eqb_spec i sentinel); congruence.
Qed.

(** ** Lookup of an unbound uid *)

Lemma add_all_same_bits (m m' : UidMap) (ops : list (Z * Z)) :
  add_all m ops = (m', Ok tt) -> m' = set_mapping m (mapping m').
Proof.
  apply (add_all_inv (fun x => x = set_mapping m (mapping x))).
  - intros m1 m2 uid index H1 H2.
    rewrite (add_individual_layout _ _ _ _ _ H2), H1. reflexivity.
  - now destruct m.
Qed.

Lemma add_all_allocatable (m m' : UidMap) (ops : list (Z * Z)) :
  allocatable m -> add_all m ops = (m', Ok tt) -> allocatable m'.
Proof.
  intros Hal Hrun. rewrite (add_all_same_bits _ _ _ Hrun). exact Hal.
Qed.

Lemma row_at_array_at (m : UidMap) (y c d s : nat) :
  row_at m (y, c, d, s) =
    match array_at m y c d with
    | Some arr => arr !! s
    | None => None
    end.
Proof.
  unfold row_at, array_at.
  destruct (entry (mapping m) y) as [cl|]; [|reflexivity].
  destruct (entry cl c) as [dl|]; reflexivity.
Qed.

(** C4, amended. On a table built by inserts that all returned from one
    with a valid layout, level lengths that are not truncated and nothing
    allocated below level 1: for a uid that no insert of the run carried,
    lookup raises [TypeError] when the array of its (year, child slot, day)
    is not allocated; when that array is allocated it returns the sentinel
    if the serial number is below [2^populationBits], and otherwise raises
    [IndexError], or [OverflowError] from [2^63] on. *)
Theorem lookup_unbound (m0 m : UidMap) (ops : list (Z * Z))
    (uid ssn child day year : Z) :
  layout_ok m0 -> allocatable m0 -> shape_ok m0 -> vacant m0 ->
  add_all m0 ops = (m, Ok tt) ->
  last_insert ops (to_u64 uid) = None ->
  parse_uid m uid = (ssn, child, day, year) ->
  get_index m uid =
    (m, match array_at m (Z.to_nat year) (Z.to_nat child) (Z.to_nat day) with
        | None => Raise TypeError
        | Some _ =>
          if ssn <? 2 ^ pop_bits m then Ok sentinel
          else Raise (if ssn <? 2 ^ 63 then IndexError else OverflowError)
        end).
Proof.
  intros Hlo Hal Hsh Hv Hrun Hlast Hp.
  pose proof (add_all_layout_ok _ _ _ Hlo Hrun) as Hlo'.
  pose proof (add_all_shape _ _ _ Hsh Hrun) as Hsh'.
  pose proof (add_all_allocatable _ _ _ Hal Hrun) as Hal'.
  rewrite (get_index_shaped m Hlo' Hal' Hsh' _ _ _ _ _ Hp).
  pose proof (binding_add_all _ _ _ (to_u64 uid) Hlo Hrun (to_u64_range uid))
    as Hb.
  rewrite Hlast, (vacant_binding _ _ Hv) in Hb.
  unfold binding in Hb. rewrite coord_to_u64 in Hb. unfold coord in Hb.
  rewrite Hp, row_at_array_at in Hb.
  destruct (array_at m _ _ _) as [arr|] eqn:Ea; [|reflexivity].
  pose proof (array_at_length m Hsh' _ _ _ _ Ea) as Hlen.
  pose proof (parse_uid_bounds m Hlo' _ _ _ _ _ Hp) as ([Hs0 _] & _).
  pose proof (ssn_lt m Hlo' Hal' ssn Hs0) as Hs.
  f_equal. destruct (arr !! Z.to_nat ssn) as [[i v]|] eqn:Er.
  - apply lookup_lt_Some in Er.
    destruct (Z.ltb_spec ssn (2 ^ pop_bits m)); [|lia].
    simpl. destruct (Z.eqb_spec i sentinel); congruence.
  - apply lookup_ge_None in Er.
    destruct (Z.ltb_spec ssn (2 ^ pop_bits m)); [lia|reflexivity].
Qed.

(** ** Construction *)

Lemma bits_for_log2_up (n : Z) :
  0 < n <= 2 ^ 31 -> bits_for n = Z.log2_up n /\ 0 <= Z.log2_up n <= 31.
Proof.
  intros H. assert (Hb : 0 <= Z.log2_up n <= 31).
  { split; [apply Z.log2_up_nonneg|]. apply Z.log2_up_le_pow2; lia. }
  split; [|exact Hb]. unfold bits_for, to_u32. apply Z.mod_small. lia.
Qed.

(** C5, amended. The constructor checks nothing: for capacities from 1 to
    [2^31] it returns an object whose widths are the rounded-up base-2
    logarithms, also when the day is wider than the time or the widths sum
    to more than 64. The year level is the only one allocated, all its
    entries unallocated; its length is [2^yearBits] when the day is not
    wider than the time. *)
Theorem construct_unchecked (population timesteps children year_size : Z) :
  0 < population <= 2 ^ 31 -> 0 < timesteps <= 2 ^ 31 ->
  0 < children <= 2 ^ 31 -> 0 < year_size <= 2 ^ 31 ->
  exists m,
    __init__ population timesteps children year_size = Ok m /\
    pop_bits m = Z.log2_up population /\
    time_bits m = Z.log2_up timesteps /\
    child_bits m = Z.log2_up children /\
    day_bits m = Z.log2_up year_size /\
    mapping m = replicate (length (mapping m)) None /\
    vacant m /\
    (day_bits m <= time_bits m ->
     year_bits m = time_bits m - day_bits m /\
     length (mapping m) = Z.to_nat (2 ^ year_bits m)).
Proof.
  intros Hp Ht Hc Hd.
  destruct (bits_for_log2_up _ Hp) as [Ep Bp].
  destruct (bits_for_log2_up _ Ht) as [Et Bt].
  destruct (bits_for_log2_up _ Hc) as [Ec Bc].
  destruct (bits_for_log2_up _ Hd) as [Ed Bd].
  eexists. split; [reflexivity|]. simpl.
  rewrite Ep, Et, Ec, Ed.
  do 4 (split; [reflexivity|]).
  split; [now rewrite length_replicate|].
  split.
  { rewrite <- Ep, <- Et, <- Ec, <- Ed. apply of_bits_vacant. }
  intros Hle.
  assert (Hy : to_u32 (Z.log2_up timesteps - Z.log2_up year_size)
               = Z.log2_up timesteps - Z.log2_up year_size).
  { unfold to_u32. apply Z.mod_small. lia. }
  split; [exact Hy|].
  pose proof width_bounds as Hw.
  rewrite length_replicate. f_equal.
  rewrite Hy, shl1_small by lia.
  unfold to_u32. apply Z.mod_small. split.
  - apply Z.lt_le_incl, pow2_pos. lia.
  - apply Z.pow_lt_mono_r; lia.
Qed.

(** ** Coordinates beyond the table *)

(** C7, amended. A year beyond the year level makes insert and lookup
    raise [IndexError], on any table, and leaves the table as it was. On a
    table of valid layout and shape, with level lengths that are not
    truncated, a serial number of [2^populationBits] or more makes insert
    raise [IndexError], or [OverflowError] from [2^63] on; lookup raises
    the same when the array of the (year, child slot, day) is allocated and
    [TypeError] when it is not. No row is read or written. *)
Theorem out_of_range_raises (m : UidMap) (uid index ssn child day year : Z) :
  parse_uid m uid = (ssn, child, day, year) ->
  ((length (mapping m) <= Z.to_nat year)%nat ->
   add_individual m uid index = (m, Raise IndexError) /\
   get_index m uid = (m, Raise IndexError)) /\
  (layout_ok m -> allocatable m -> shape_ok m ->
   2 ^ pop_bits m <= ssn ->
   snd (add_individual m uid index)
     = Raise (if ssn <? 2 ^ 63 then IndexError else OverflowError) /\
   get_index m uid =
     (m, match array_at m (Z.to_nat year) (Z.to_nat child) (Z.to_nat day) with
         | None => Raise TypeError
         | Some _ =>
           Raise (if ssn <? 2 ^ 63 then IndexError else OverflowError)
         end)).
Proof.
  intros Hp. split.
  - intros Hge. apply lookup_ge_None in Hge.
    unfold add_individual, get_index. rewrite parse_uid_to_u64, Hp, Hge.
    split; reflexivity.
  - intros Hlo Hal Hsh Hge. split.
    + rewrite (add_individual_outcome m Hlo Hal Hsh _ _ _ _ _ _ Hp).
      destruct (Z.ltb_spec ssn (2 ^ pop_bits m)); [lia|reflexivity].
    + rewrite (get_index_shaped m Hlo Hal Hsh _ _ _ _ _ Hp).
      destruct (array_at m _ _ _) as [arr|] eqn:Ea; [|reflexivity].
      pose proof (array_at_length m Hsh _ _ _ _ Ea) as Hlen.
      pose proof (parse_uid_bounds m Hlo _ _ _ _ _ Hp) as ([Hs0 _] & _).
      pose proof (ssn_lt m Hlo Hal ssn Hs0) as Hs.
      destruct (arr !! Z.to_nat ssn) eqn:Er; [|reflexivity].
      apply lookup_lt_Some in Er. lia.
Qed.

(** ** The sentinel as a storage index *)


(** * Further properties of the code *)

(** ** Codec *)

(** Encoding what [parse_uid] returns for a uid below [2^exact], with the
    time put together from the year and the day, gives back the uid. *)
Theorem make_uid_parse_uid (m : UidMap) (uid ssn child day year : Z) :
  layout_ok m ->
  0 <= uid < 2 ^ exact ->
  parse_uid m uid = (ssn, child, day, year) ->
  make_uid m ssn (year * 2 ^ day_bits m + day) child = Some (Ok uid).
Proof.
  intros Hlo Hu Hp.
  pose proof (parse_uid_rebuild m Hlo _ _ _ _ _ Hp) as Hr.
  pose proof (parse_uid_bounds m Hlo _ _ _ _ _ Hp) as (Hs & Hc & Hd & Hy).
  pose proof width_bounds as Hw.
  assert (2 ^ exact <= 2 ^ 64) by (apply Z.pow_le_mono_r; lia).
  rewrite to_u64_id in Hr by (unfold is_u64; lia).
  destruct Hlo as [Hder Hp0 Hc0 Hd0 Hsum Hm].
  pose proof (pow2_pos (day_bits m) ltac:(lia)).
  rewrite (make_uid_exact m (mk_layout_ok m Hder Hp0 Hc0 Hd0 Hsum Hm));
    try nia.
  do 2 f_equal. lia.
Qed.

(** Two uids that decode to the same four fields are the same 64-bit
    word: no two uids share a position of the table. *)
Theorem parse_uid_injective (m : UidMap) (u v : Z) :
  layout_ok m -> is_u64 u -> is_u64 v ->
  parse_uid m u = parse_uid m v -> u = v.
Proof.
  intros Hlo Hu Hv H. apply (parse_uid_inj m Hlo) in H.
  now rewrite (to_u64_id u Hu), (to_u64_id v Hv) in H.
Qed.

(** The sum of components that fit their fields is the uid, when the
    three widths sum to at most [exact]. *)
Lemma make_uid_fit (m : UidMap) (ssn time child : Z) :
  layout_ok m ->
  pop_bits m + time_bits m + child_bits m <= exact ->
  0 <= ssn < 2 ^ pop_bits m -> 0 <= time < 2 ^ time_bits m ->
  0 <= child < 2 ^ child_bits m ->
  make_uid m ssn time child =
    Some (Ok (ssn * 2 ^ (child_bits m + time_bits m)
              + child * 2 ^ time_bits m + time)).
Proof.
  intros Hlo Hex Bs Bt Bc.
  pose proof (sum_fit_lt m Hlo _ _ _ Bs Bt Bc) as Hlt.
  assert (2 ^ (pop_bits m + child_bits m + time_bits m) <= 2 ^ exact)
    by (apply Z.pow_le_mono_r; lia).
  apply (make_uid_exact m Hlo); lia.
Qed.

(** Different triples within the widths get different uids, when the
    three widths sum to at most [exact]. *)
Theorem make_uid_injective (m : UidMap) (ssn time child ssn' time' child' : Z) :
  layout_ok m ->
  pop_bits m + time_bits m + child_bits m <= exact ->
  0 <= ssn < 2 ^ pop_bits m -> 0 <= time < 2 ^ time_bits m ->
  0 <= child < 2 ^ child_bits m ->
  0 <= ssn' < 2 ^ pop_bits m -> 0 <= time' < 2 ^ time_bits m ->
  0 <= child' < 2 ^ child_bits m ->
  make_uid m ssn time child = make_uid m ssn' time' child' ->
  ssn = ssn' /\ time = time' /\ child = child'.
Proof.
  intros Hlo Hex Hs Ht Hc Hs' Ht' Hc' H.
  rewrite !make_uid_fit in H by assumption. injection H as H.
  pose proof (parse_sum_fit m Hlo _ _ _ Hs Ht Hc) as H1.
  rewrite H, (parse_sum_fit m Hlo _ _ _ Hs' Ht' Hc') in H1.
  injection H1 as E1 E2 E3 E4.
  repeat split; try congruence.
  destruct Hlo as [_ _ _ Hd0 _ _].
  pose proof (pow2_pos (day_bits m) ltac:(lia)).
  rewrite (Z_div_mod_eq_full time (2 ^ day_bits m)).
  rewrite (Z_div_mod_eq_full time' (2 ^ day_bits m)). congruence.
Qed.

(** Decoding the uid made from components that fit their fields gives the
    components back, when the three widths sum to at most [exact]. *)
Theorem round_trip_exact (m : UidMap) (ssn time child : Z) :
  layout_ok m ->
  pop_bits m + time_bits m + child_bits m <= exact ->
  0 <= ssn < 2 ^ pop_bits m -> 0 <= time < 2 ^ time_bits m ->
  0 <= child < 2 ^ child_bits m ->
  exists uid,
    make_uid m ssn time child = Some (Ok uid) /\
    parse_uid m uid =
      (ssn, child, time mod 2 ^ day_bits m, time / 2 ^ day_bits m).
Proof.
  intros Hlo Hex Hs Ht Hc. eexists. split.
  - now apply make_uid_fit.
  - now apply (parse_sum_fit m Hlo).
Qed.

(** With NumPy 1 the three widths may sum to 64: decoding the uid made
    from components that fit their fields, each below [2^63], gives the
    components back. *)
Theorem round_trip_numpy1 (m : UidMap) (ssn time child : Z) :
  np = NumPy1 ->
  layout_ok m ->
  0 <= ssn < 2 ^ pop_bits m -> 0 <= time < 2 ^ time_bits m ->
  0 <= child < 2 ^ child_bits m ->
  ssn < 2 ^ 63 -> time < 2 ^ 63 -> child < 2 ^ 63 ->
  exists uid,
    make_uid m ssn time child = Some (Ok uid) /\
    parse_uid m uid =
      (ssn, child, time mod 2 ^ day_bits m, time / 2 ^ day_bits m).
Proof.
  intros Hnp Hlo Hs Ht Hc Ls Lt Lc. eexists. split.
  - assert (Hop : forall k, 0 <= k < 2 ^ 63 -> operand k = true).
    { intros k Hk. unfold operand. rewrite Hnp.
      apply andb_true_intro. split; [apply Z.leb_le|apply Z.ltb_lt]; lia. }
    rewrite (make_uid_sum m Hlo) by (apply Hop; lia).
    pose proof (sum_fit_lt m Hlo _ _ _ Hs Ht Hc) as Hlt.
    destruct Hlo as [_ Hp0 Hc0 Hd0 Hsum _].
    assert (2 ^ (pop_bits m + child_bits m + time_bits m) <= 2 ^ 64)
      by (apply Z.pow_le_mono_r; lia).
    unfold width. rewrite Hnp. rewrite Z.mod_small by lia. reflexivity.
  - now apply (parse_sum_fit m Hlo).
Qed.

(** ** Constructor *)

(** The widths the constructor derives are large enough for the
    capacities it was given, and no larger than needed: each capacity lies
    in the upper half of the range of its width. *)
Theorem init_widths_fit (population timesteps children year_size : Z)
    (m : UidMap) :
  0 < population <= 2 ^ 31 -> 0 < timesteps <= 2 ^ 31 ->
  0 < children <= 2 ^ 31 -> 0 < year_size <= 2 ^ 31 ->
  __init__ population timesteps children year_size = Ok m ->
  (population <= 2 ^ pop_bits m /\ 2 ^ pop_bits m < 2 * population) /\
  (timesteps <= 2 ^ time_bits m /\ 2 ^ time_bits m < 2 * timesteps) /\
  (children <= 2 ^ child_bits m /\ 2 ^ child_bits m < 2 * children) /\
  (year_size <= 2 ^ day_bits m /\ 2 ^ day_bits m < 2 * year_size).
Proof.
  intros Hp Ht Hc Hd [= <-]. simpl.
  assert (Hfit : forall n, 0 < n <= 2 ^ 31 ->
            n <= 2 ^ bits_for n /\ 2 ^ bits_for n < 2 * n).
  { intros n Hn. destruct (bits_for_log2_up n Hn) as [-> Hb].
    destruct (Z.eq_dec n 1) as [->|Hn1];
      [split; vm_compute; [discriminate|reflexivity]|].
    pose proof (Z.log2_up_spec n ltac:(lia)) as [Hlo Hhi].
    split; [exact Hhi|].
    replace (Z.log2_up n) with (Z.succ (Z.pred (Z.log2_up n))) by lia.
    rewrite Z.pow_succ_r; [lia|].
    pose proof (Z.log2_up_pos n ltac:(lia)). lia. }
  auto.
Qed.


(** ** Insert that raises *)

Lemma grows_default {A : Type} (rowf : A -> option (Z * Z)) (o : option A)
    (fr : A) :
  grows None (rowf fr) ->
  grows (match o with None => None | Some x => rowf x end)
        (rowf (default fr o)).
Proof. intros H. destruct o; [apply grows_refl|exact H]. Qed.

Lemma row_in_cl_fresh (m : UidMap) (c d s : nat) :
  row_in_cl (fresh_child_list m) c d s = None.
Proof. unfold row_in_cl, fresh_child_list. now rewrite entry_replicate. Qed.

Lemma row_in_dl_fresh (m : UidMap) (d s : nat) :
  row_in_dl (fresh_day_list m) d s = None.
Proof. unfold row_in_dl, fresh_day_list. now rewrite entry_replicate. Qed.

Lemma grows_fresh_ssn_array (m : UidMap) (s : nat) :
  grows None (fresh_ssn_array m !! s).
Proof.
  unfold fresh_ssn_array.
  destruct (replicate _ _ !! s) as [r|] eqn:E; [|apply grows_refl].
  apply lookup_replicate in E as [-> _]. now right.
Qed.

(** An insert that raises may have allocated levels, but every row is as
    it was, up to the empty rows of a newly allocated array. *)
Lemma add_individual_Raise (m m' : UidMap) (uid index : Z) (e : exn) :
  add_individual m uid index = (m', Raise e) ->
  forall q : pos, grows (row_at m q) (row_at m' q).
Proof.
  unfold add_individual.
  destruct (parse_uid m (to_u64 uid)) as [[[ssn child] day] year].
  set (y := Z.to_nat year). set (c := Z.to_nat child).
  set (d := Z.to_nat day). set (s := Z.to_nat ssn).
  destruct (mapping m !! y) as [at_year|] eqn:Ey.
  2:{ intros [= <- <-]. intros q. apply grows_refl. }
  assert (Ey' : default [] (Some (mapping m)) !! y = Some at_year) by exact Ey.
  destruct (default (fresh_child_list m) at_year !! c) as [at_child|] eqn:Ec.
  2:{ intros [= <- <-]. intros [[[y' c'] d'] s'].
      rewrite !row_at_unfold. simpl mapping.
      apply (level_frame (Some (mapping m)) [] y at_year _
               (fun cl => row_in_cl cl c' d' s')); [easy|exact Ey'|].
      right. apply (grows_default (fun cl => row_in_cl cl c' d' s')).
      rewrite row_in_cl_fresh. apply grows_refl. }
  assert (Hdl : forall q : pos,
            grows (row_at m q)
              (row_at (set_mapping m
                 (<[y := Some (<[c := Some (default (fresh_day_list m)
                                              at_child)]>
                                 (default (fresh_child_list m) at_year))]>
                    (mapping m))) q)).
  { intros [[[y' c'] d'] s'].
    rewrite !row_at_unfold. simpl mapping.
    apply (level_frame (Some (mapping m)) [] y at_year _
             (fun cl => row_in_cl cl c' d' s')); [easy|exact Ey'|].
    right.
    apply (level_frame at_year (fresh_child_list m) c at_child _
             (fun dl => row_in_dl dl d' s'));
      [intros; apply entry_replicate|exact Ec|].
    right. apply (grows_default (fun dl => row_in_dl dl d' s')).
    rewrite row_in_dl_fresh. apply grows_refl. }
  destruct (default (fresh_day_list m) at_child !! d) as [at_day|] eqn:Ed.
  2:{ intros [= <- <-]. exact Hdl. }
  destruct (ssn_array_at m at_day) as [arr0|e0] eqn:Ea.
  2:{ intros [= <- <-]. exact Hdl. }
  apply ssn_array_at_Ok in Ea as ->.
  assert (Harr : forall q : pos,
            grows (row_at m q)
              (row_at (set_mapping m
                 (<[y := Some (<[c := Some (<[d := Some (default
                                                 (fresh_ssn_array m) at_day)]>
                                             (default (fresh_day_list m)
                                                at_child))]>
                                 (default (fresh_child_list m) at_year))]>
                    (mapping m))) q)).
  { intros [[[y' c'] d'] s'].
    rewrite !row_at_unfold. simpl mapping.
    apply (level_frame (Some (mapping m)) [] y at_year _
             (fun cl => row_in_cl cl c' d' s')); [easy|exact Ey'|].
    right.
    apply (level_frame at_year (fresh_child_list m) c at_child _
             (fun dl => row_in_dl dl d' s'));
      [intros; apply entry_replicate|exact Ec|].
    right. unfold row_in_dl at 2.
    change (match at_child with
            | Some x => row_in_dl x d' s'
            | None => None
            end)
      with (match at_child with
            | Some l0 =>
              match entry l0 d' with None => None | Some a => a !! s' end
            | None => None
            end).
    apply (level_frame at_child (fresh_day_list m) d at_day _
             (fun a : list (Z * Z) => a !! s'));
      [intros; apply entry_replicate|exact Ed|].
    right. apply (grows_default (fun a : list (Z * Z) => a !! s')).
    apply grows_fresh_ssn_array. }
  destruct (default (fresh_ssn_array m) at_day !! s) as [r0|] eqn:Es.
  2:{ intros [= <- <-]. exact Harr. }
  destruct (as_u64 index) as [i|e1]; [easy|].
  intros [= <- <-]. exact Harr.
Qed.

Lemma grows_binding (m m' : UidMap) (u : Z) :
  coord m' u = coord m u ->
  grows (row_at m (coord m u)) (row_at m' (coord m u)) ->
  binding m' u = binding m u.
Proof.
  intros Hc Hg. unfold binding. rewrite Hc.
  destruct Hg as [->|[-> ->]]; reflexivity.
Qed.

Lemma get_index_Ok_inv (m m1 : UidMap) (v i : Z) :
  get_index m v = (m1, Ok i) ->
  exists r, row_at m (coord m v) = Some r /\ fst r = i.
Proof.
  intros H. pose proof (get_index_cases m v) as Hc.
  destruct (row_at m (coord m v)) as [r|].
  - exists r. split; [reflexivity|]. rewrite Hc in H. now injection H.
  - destruct Hc as [Hc|[Hc|Hc]]; rewrite Hc in H; discriminate.
Qed.

Lemma grows_Some (r : Z * Z) (after : option (Z * Z)) :
  grows (Some r) after -> after = Some r.
Proof. intros [<-|[H _]]; [reflexivity|discriminate]. Qed.

(** ** Invariants kept by insert *)


(** An insert that raises loses nothing: every uid keeps its binding, and
    every lookup that returned a value returns the same value
    afterwards. *)
Theorem failed_insert_keeps_bindings (m m' : UidMap) (uid index : Z)
    (e : exn) :
  add_individual m uid index = (m', Raise e) ->
  (forall u, binding m' u = binding m u) /\
  (forall v i, get_index m v = (m, Ok i) -> get_index m' v = (m', Ok i)).
Proof.
  intros Hadd.
  pose proof (add_individual_layout _ _ _ _ _ Hadd) as Hm.
  pose proof (add_individual_Raise _ _ _ _ _ Hadd) as Hg.
  assert (Hco : forall u, coord m' u = coord m u) by (intros; now rewrite Hm).
  split.
  - intros u. apply grows_binding; [apply Hco|apply Hg].
  - intros v i Hget. apply get_index_Ok_inv in Hget as (r & Hr & <-).
    apply get_index_row. rewrite Hco.
    apply grows_Some. rewrite <- Hr. apply Hg.
Qed.

(** ** Insert and the other uids *)

(** An insert that returns changes the binding of no other uid, and every
    lookup of another uid that returned a value returns the same value
    afterwards. *)
Theorem insert_keeps_other_bindings (m m' : UidMap) (uid index v : Z) :
  layout_ok m ->
  add_individual m uid index = (m', Ok tt) ->
  to_u64 v <> to_u64 uid ->
  binding m' v = binding m v /\
  (forall i, get_index m v = (m, Ok i) -> get_index m' v = (m', Ok i)).
Proof.
  intros Hlo Hadd Hne.
  destruct (add_individual_Ok _ _ _ _ Hadd) as (Hm & _ & Hframe).
  assert (Hco : coord m' v = coord m v) by (now rewrite Hm).
  assert (Hq : coord m v <> coord m uid).
  { intros H. now apply (coord_inj m _ _ Hlo) in H. }
  split.
  - apply grows_binding; [exact Hco|]. now apply Hframe.
  - intros i Hget. apply get_index_Ok_inv in Hget as (r & Hr & <-).
    apply get_index_row. rewrite Hco.
    apply grows_Some. rewrite <- Hr. now apply Hframe.
Qed.

(** ** Encode, insert, look up *)


(** ** Enumerate, look up *)

(** In a table whose occupied rows hold uids that decode to their
    positions, the lookup of every uid that [uids] yields returns a value,
    and that value is not the sentinel: the last loop of [main] never
    raises. *)
Theorem enumerated_uids_look_up (m : UidMap) (u : Z) :
  coherent m ->
  u ∈ snd (uids m) ->
  exists i, get_index m u = (m, Ok i) /\ i <> sentinel /\ binding m u = Some i.
Proof.
  intros Hc Hu. rewrite uids_occupied in Hu.
  apply list_elem_of_fmap in Hu as ([p v] & -> & H). simpl.
  apply elem_of_occupied in H as (i & Hi & Hni).
  destruct (Hc p i v Hi Hni) as [<- _].
  exists i. split; [|split].
  - now rewrite (get_index_row _ _ _ Hi).
  - exact Hni.
  - unfold binding. rewrite Hi.
    destruct (Z.eqb_spec i sentinel); [contradiction|reflexivity].
Qed.

(** ** The new table *)



(** ** Lazy allocation *)

Section LevelEq.
Context {A B : Type}.
Variable old : option (list (option A)).
Variable fresh : list (option A).
Variable i : nat.
Variable sub0 : option A.
Variable sub' : A.
Variable f : A -> option B.

Hypothesis fresh_vacant : forall k, entry fresh k = None.
Hypothesis Hi : default fresh old !! i = Some sub0.

Let under (l : list (option A)) (j : nat) : option B :=
  match entry l j with None => None | Some x => f x end.

Lemma level_eq_hit :
  under (<[i := Some sub']> (default fresh old)) i = f sub'.
Proof.
  unfold under. rewrite entry_insert_eq; [easy|].
  eapply lookup_lt_Some, Hi.
Qed.

Lemma level_eq (j : nat) :
  (j <> i \/ match sub0 with None => None | Some x => f x end = f sub') ->
  match old with None => None | Some l0 => under l0 j end
    = under (<[i := Some sub']> (default fresh old)) j.
Proof.
  intros H. destruct (decide (j = i)) as [->|Hne].
  - destruct H as [H|H]; [easy|]. rewrite level_eq_hit.
    destruct old as [l0|]; simpl in *.
    + unfold under. now rewrite (entry_lookup _ _ _ Hi).
    + pose proof (fresh_vacant i) as Hv.
      rewrite (entry_lookup _ _ _ Hi) in Hv. now subst sub0.
  - unfold under. rewrite entry_insert_ne by congruence.
    destruct old as [l0|]; simpl; [reflexivity|].
    now rewrite fresh_vacant.
Qed.
End LevelEq.

(** An insert that returns allocates at most one array, the one of the
    (year, child slot, day) of its uid: that array is allocated afterwards,
    and for every other (year, child slot, day) the array is the one that
    was there before, allocated or not. *)
Theorem insert_allocates_only_its_array (m m' : UidMap)
    (uid index ssn child day year : Z) :
  add_individual m uid index = (m', Ok tt) ->
  parse_uid m uid = (ssn, child, day, year) ->
  (exists arr,
     array_at m' (Z.to_nat year) (Z.to_nat child) (Z.to_nat day) = Some arr) /\
  forall y' c' d' : nat,
    (y', c', d') <> (Z.to_nat year, Z.to_nat child, Z.to_nat day) ->
    array_at m' y' c' d' = array_at m y' c' d'.
Proof.
  unfold add_individual. rewrite parse_uid_to_u64. intros Hadd Hp.
  rewrite Hp in Hadd.
  set (y := Z.to_nat year) in *. set (c := Z.to_nat child) in *.
  set (d := Z.to_nat day) in *. set (s := Z.to_nat ssn) in *.
  destruct (mapping m !! y) as [at_year|] eqn:Ey; [|easy].
  destruct (default (fresh_child_list m) at_year !! c)
    as [at_child|] eqn:Ec; [|easy].
  destruct (default (fresh_day_list m) at_child !! d)
    as [at_day|] eqn:Ed; [|easy].
  destruct (ssn_array_at m at_day) as [arr0|e0] eqn:Ea; [|easy].
  apply ssn_array_at_Ok in Ea as ->.
  destruct (default (fresh_ssn_array m) at_day !! s)
    as [r0|] eqn:Es; [|easy].
  destruct (as_u64 index) as [i|e1] eqn:Ei; [|easy].
  apply as_u64_Ok in Ei as ->.
  injection Hadd as <-.
  set (arr' := <[s := (to_u64 index, to_u64 uid)]>
                 (default (fresh_ssn_array m) at_day)).
  assert (Ey' : default [] (Some (mapping m)) !! y = Some at_year) by exact Ey.
  split.
  - exists arr'. unfold array_at. simpl mapping.
    rewrite (level_eq_hit (Some (mapping m)) [] y at_year _
               (fun cl => match entry cl c with
                          | None => None
                          | Some dl => entry dl d
                          end) Ey').
    rewrite (level_eq_hit at_year (fresh_child_list m) c at_child _
               (fun dl => entry dl d) Ec).
    apply entry_insert_eq. eapply lookup_lt_Some, Ed.
  - intros y' c' d' Hne. unfold array_at. simpl mapping. symmetry.
    apply (level_eq (Some (mapping m)) [] y at_year _
             (fun cl => match entry cl c' with
                        | None => None
                        | Some dl => entry dl d'
                        end)); [easy|exact Ey'|].
    destruct (decide (y' = y)) as [->|]; [right|now left].
    apply (level_eq at_year (fresh_child_list m) c at_child _
             (fun dl => entry dl d'));
      [intros; apply entry_replicate|exact Ec|].
    destruct (decide (c' = c)) as [->|]; [right|now left].
    assert (Hd : d <> d') by congruence.
    rewrite entry_insert_ne by exact Hd.
    destruct at_child as [dl0|]; [reflexivity|].
    simpl. unfold fresh_day_list. now rewrite entry_replicate.
Qed.

(** ** What one insert does to the enumeration *)

(** After an insert that returns with an index other than the sentinel,
    [uids] yields the inserted uid and, besides it, exactly the uids it
    yielded before. *)
Theorem insert_adds_uid (m m' : UidMap) (uid index : Z) :
  layout_ok m -> coherent m ->
  add_individual m uid index = (m', Ok tt) ->
  to_u64 index <> sentinel ->
  forall u, u ∈ snd (uids m') <-> u = to_u64 uid \/ u ∈ snd (uids m).
Proof.
  intros Hlo Hc Hadd Hns u.
  pose proof (add_individual_layout_ok _ _ _ _ _ Hlo Hadd) as Hlo'.
  pose proof (add_individual_coherent _ _ _ _ Hc Hadd) as Hc'.
  rewrite (elem_of_uids m' u Hlo' Hc'), (elem_of_uids m u Hlo Hc). split.
  - intros [Hu Hb]. rewrite (binding_add _ _ _ _ _ Hlo Hadd Hu) in Hb.
    destruct (Z.eqb_spec (to_u64 uid) u) as [E|E]; [now left|].
    right. split; assumption.
  - intros [->|[Hu Hb]].
    + split; [apply to_u64_range|].
      rewrite (binding_add _ _ _ _ _ Hlo Hadd (to_u64_range uid)).
      rewrite Z.eqb_refl.
      destruct (Z.eqb_spec (to_u64 index) sentinel); [contradiction|easy].
    + split; [exact Hu|].
      rewrite (binding_add _ _ _ _ _ Hlo Hadd Hu).
      destruct (Z.eqb_spec (to_u64 uid) u); [|exact Hb].
      destruct (Z.eqb_spec (to_u64 index) sentinel); [contradiction|easy].
Qed.



(** ** The enumeration is determined by the bindings *)

Lemma pos_lt_asym (p q : pos) : pos_lt p q -> pos_lt q p -> False.
Proof.
  destruct p as [[[y c] d] s], q as [[[y' c'] d'] s']. unfold pos_lt. lia.
Qed.

(** The occupied rows of a coherent table, read off the bindings. *)
Lemma occupied_binding (m : UidMap) (p : pos) (u : Z) :
  layout_ok m -> coherent m ->
  ((p, u) ∈ occupied m <->
   is_u64 u /\ coord m u = p /\ binding m u <> None).
Proof.
  intros Hlo Hc. rewrite elem_of_occupied. split.
  - intros (i & Hi & Hni). destruct (Hc p i u Hi Hni) as [Hp Hu].
    split; [exact Hu|]. split; [exact Hp|].
    unfold binding. rewrite Hp, Hi.
    destruct (Z.eqb_spec i sentinel); [contradiction|discriminate].
  - intros (Hu & <- & Hb). unfold binding in Hb.
    destruct (row_at m (coord m u)) as [[i v]|] eqn:E; [|easy].
    destruct (Z.eqb_spec i sentinel) as [|Hni]; [easy|].
    destruct (Hc _ i v E Hni) as [Hcv Hv].
    apply (coord_inj m _ _ Hlo) in Hcv.
    rewrite (to_u64_id v Hv), (to_u64_id u Hu) in Hcv. subst v. eauto.
Qed.

(** Two coherent tables of the same layout in which the same uids are
    bound yield the same sequence of uids. *)
Lemma uids_eq_of_bindings (m m' : UidMap) :
  layout_ok m -> coherent m -> layout_ok m' -> coherent m' ->
  (forall u, coord m' u = coord m u) ->
  (forall u, is_u64 u -> (binding m u <> None <-> binding m' u <> None)) ->
  snd (uids m) = snd (uids m').
Proof.
  intros Hlo Hc Hlo' Hc' Hco Hb. rewrite !uids_occupied. f_equal.
  apply (StronglySorted_unique_strong entry_lt).
  - intros x1 x2 _ _ H1 H2. destruct (pos_lt_asym _ _ H1 H2).
  - apply occupied_sorted.
  - apply occupied_sorted.
  - apply NoDup_Permutation; [apply occupied_NoDup..|].
    intros [p u].
    rewrite (occupied_binding m p u Hlo Hc).
    rewrite (occupied_binding m' p u Hlo' Hc'). rewrite Hco.
    split; intros (Hu & Hp & H); (split; [exact Hu|]);
      (split; [exact Hp|]); now apply (Hb u Hu).
Qed.


(** An insert that raises changes nothing of what [uids] yields, and an
    insert that gives a new index, other than the sentinel, to a uid that
    is bound leaves the sequence that [uids] yields as it was. *)
Theorem enumeration_unchanged (m m' : UidMap) (uid index : Z)
    (o : outcome unit) :
  layout_ok m -> coherent m ->
  add_individual m uid index = (m', o) ->
  (o = Ok tt ->
   binding m (to_u64 uid) <> None /\ to_u64 index <> sentinel) ->
  snd (uids m') = snd (uids m).
Proof.
  intros Hlo Hc Hadd Ho.
  pose proof (add_individual_layout _ _ _ _ _ Hadd) as Hm.
  pose proof (add_individual_layout_ok _ _ _ _ _ Hlo Hadd) as Hlo'.
  assert (Hco : forall u, coord m' u = coord m u) by (intros; now rewrite Hm).
  symmetry. destruct o as [[]|e].
  - destruct (Ho eq_refl) as [Hb Hns].
    apply uids_eq_of_bindings; try assumption.
    + eapply add_individual_coherent; eauto.
    + intros u Hu. rewrite (binding_add _ _ _ _ _ Hlo Hadd Hu).
      destruct (Z.eqb_spec (to_u64 uid) u) as [<-|]; [|reflexivity].
      destruct (Z.eqb_spec (to_u64 index) sentinel); [contradiction|].
      split; [discriminate|intros _; exact Hb].
  - pose proof (add_individual_Raise _ _ _ _ _ Hadd) as Hg.
    assert (Hbind : forall u, binding m' u = binding m u).
    { intros u. apply grows_binding; [apply Hco|apply Hg]. }
    apply uids_eq_of_bindings; try assumption.
    + intros p i u Hrow Hi. rewrite Hco. apply (Hc p i u); [|exact Hi].
      destruct (Hg p) as [E|[_ E]]; [congruence|].
      rewrite E in Hrow. injection Hrow as <- _. now destruct Hi.
    + intros u _. now rewrite Hbind.
Qed.

(** ** Repeating an insert *)

(** Insert when the three levels of the position are allocated, the
    serial number is in range and the index converts: only the row is
    written. *)
Lemma add_individual_allocated (m : UidMap) (uid index ssn child day year : Z)
    (cl : list (option (list (option (list (Z * Z))))))
    (dl : list (option (list (Z * Z)))) (arr : list (Z * Z)) (r0 : Z * Z) :
  parse_uid m uid = (ssn, child, day, year) ->
  mapping m !! Z.to_nat year = Some (Some cl) ->
  cl !! Z.to_nat child = Some (Some dl) ->
  dl !! Z.to_nat day = Some (Some arr) ->
  arr !! Z.to_nat ssn = Some r0 ->
  as_u64 index = Ok (to_u64 index) ->
  add_individual m uid index =
    (set_mapping m
       (<[Z.to_nat year :=
            Some (<[Z.to_nat child :=
                      Some (<[Z.to_nat day :=
                                Some (<[Z.to_nat ssn :=
                                          (to_u64 index, to_u64 uid)]> arr)]>
                              dl)]> cl)]> (mapping m)),
     Ok tt).
Proof.
  intros Hp Hy Hc Hd Hs Hi. unfold add_individual.
  rewrite parse_uid_to_u64, Hp, Hy. simpl.
  rewrite Hc. simpl. rewrite Hd. simpl. rewrite Hs, Hi. reflexivity.
Qed.

(** Repeating an insert that returned changes nothing: the second call
    returns and leaves the table exactly as the first call left it. *)
Theorem insert_idempotent (m m' : UidMap) (uid index : Z) :
  add_individual m uid index = (m', Ok tt) ->
  add_individual m' uid index = (m', Ok tt).
Proof.
  intros H. destruct (parse_uid m uid) as [[[ssn child] day] year] eqn:Hp.
  unfold add_individual in H. rewrite parse_uid_to_u64, Hp in H.
  set (y := Z.to_nat year) in *. set (c := Z.to_nat child) in *.
  set (d := Z.to_nat day) in *. set (s := Z.to_nat ssn) in *.
  destruct (mapping m !! y) as [at_year|] eqn:Ey; [|easy].
  destruct (default (fresh_child_list m) at_year !! c)
    as [at_child|] eqn:Ec; [|easy].
  destruct (default (fresh_day_list m) at_child !! d)
    as [at_day|] eqn:Ed; [|easy].
  destruct (ssn_array_at m at_day) as [arr0|e0] eqn:Ea; [|easy].
  apply ssn_array_at_Ok in Ea as ->.
  destruct (default (fresh_ssn_array m) at_day !! s)
    as [r0|] eqn:Es; [|easy].
  destruct (as_u64 index) as [i|e1] eqn:Ei; [|easy].
  pose proof (as_u64_Ok _ _ Ei) as ->.
  injection H as <-.
  set (arr := default (fresh_ssn_array m) at_day) in *.
  set (dl := default (fresh_day_list m) at_child) in *.
  set (cl := default (fresh_child_list m) at_year) in *.
  set (r := (to_u64 index, to_u64 uid)).
  rewrite (add_individual_allocated _ uid index ssn child day year
             (<[c := Some (<[d := Some (<[s := r]> arr)]> dl)]> cl)
             (<[d := Some (<[s := r]> arr)]> dl)
             (<[s := r]> arr) r).
  - fold y c d s r. simpl mapping.
    rewrite !list_insert_insert_eq. reflexivity.
  - exact Hp.
  - apply list_lookup_insert_eq. eapply lookup_lt_Some, Ey.
  - apply list_lookup_insert_eq. eapply lookup_lt_Some, Ec.
  - apply list_lookup_insert_eq. eapply lookup_lt_Some, Ed.
  - apply list_lookup_insert_eq. eapply lookup_lt_Some, Es.
  - exact Ei.
Qed.

(** ** Runs that return *)



(** ** The first loop of [main] *)

Section Seed.
Variable m : UidMap.
Hypothesis Hlo : layout_ok m.
Hypothesis Hal : allocatable m.
Hypothesis Hex : pop_bits m + time_bits m + child_bits m <= exact.








End Seed.



(** ** When an insert returns *)

(** On a table of valid layout and shape, with level lengths that are not
    truncated, an insert returns exactly when the serial number of the uid
    is below [2^populationBits] and the index converts to [uint64]: it is
    below [2^64] and not negative (with NumPy 1: not below [-2^63]). *)
Theorem insert_returns_iff (m : UidMap) (uid index ssn child day year : Z) :
  layout_ok m -> allocatable m -> shape_ok m ->
  parse_uid m uid = (ssn, child, day, year) ->
  (snd (add_individual m uid index) = Ok tt <->
   ssn < 2 ^ pop_bits m /\
   (match np with NumPy1 => - 2 ^ 63 | NumPy2 => 0 end) <= index < 2 ^ 64).
Proof.
  intros Hlo Hal Hsh Hp.
  rewrite (add_individual_outcome m Hlo Hal Hsh _ index _ _ _ _ Hp).
  unfold as_u64, subscript_error.
  destruct (Z.ltb_spec ssn (2 ^ pop_bits m)).
  - destruct (Z.leb_spec (match np with NumPy1 => - 2 ^ 63 | NumPy2 => 0 end)
                index);
      destruct (Z.ltb_spec index (2 ^ 64)); simpl;
      split; try easy; intros [_ ?]; lia.
  - split; [|lia]. now destruct (ssn <? 2 ^ 63).
Qed.

End NumPy.

(** * The theorems at concrete inputs *)

(** ** Insert then lookup *)

Lemma insert_lookup_consistency_witness :
  get_index (fst (add_individual NumPy2 (small_map NumPy2) 8 7)) 8 =
    (fst (add_individual NumPy2 (small_map NumPy2) 8 7), Ok 7).
Proof.
  apply (insert_lookup_consistency NumPy2 (small_map NumPy2) _ 8 7).
  - unfold is_u64. lia.
  - reflexivity.
Defined.

(** ** Codec *)

(** C2 fails on the code with NumPy 2. With the widths 20, 20, 3 a serial
    number of [2^19], a time of [2^19] and the child slot 5 fit their
    fields, but the encoder computes in 32 bits and loses the serial
    number: the uid decodes to the serial number 0. With NumPy 1 the same
    call returns the 43-bit uid, which decodes to the three components. *)
Theorem round_trip_truncated :
  layout_ok NumPy2 (long_map NumPy2) /\
  0 <= 524288 < 2 ^ pop_bits (long_map NumPy2) /\
  0 <= 524288 < 2 ^ time_bits (long_map NumPy2) /\
  0 <= 5 < 2 ^ child_bits (long_map NumPy2) /\
  make_uid NumPy2 (long_map NumPy2) 524288 524288 5 = Some (Ok 5767168) /\
  parse_uid (long_map NumPy2) 5767168 = (0, 5, 0, 2048) /\
  (0, 5, 0, 2048)
    <> (524288, 5, 524288 mod 2 ^ day_bits (long_map NumPy2),
        524288 / 2 ^ day_bits (long_map NumPy2)) /\
  make_uid NumPy1 (long_map NumPy1) 524288 524288 5
    = Some (Ok 4398052278272) /\
  parse_uid (long_map NumPy1) 4398052278272 = (524288, 5, 0, 2048).
Proof.
  split; [apply long_map_layout|].
  split; [simpl; lia|]. split; [simpl; lia|]. split; [simpl; lia|].
  split; [reflexivity|]. split; [reflexivity|].
  split; [discriminate|]. split; reflexivity.
Qed.

(** C6, as stated, fails: with the widths of [main] the child slot 8 does
    not fit in its 3 bits; the encoder does not discard its bit 3, the uid
    is the one of serial number 1 and child slot 0, with either NumPy. *)
Lemma encode_overflow_carries :
  make_uid NumPy2 (main_map NumPy2) 0 0 8 = Some (Ok 65536) /\
  make_uid NumPy2 (main_map NumPy2) 1 0 0 = Some (Ok 65536) /\
  make_uid NumPy1 (main_map NumPy1) 0 0 8 = Some (Ok 65536) /\
  make_uid NumPy1 (main_map NumPy1) 1 0 0 = Some (Ok 65536) /\
  parse_uid (main_map NumPy2) 65536 = (1, 0, 0, 0) /\
  (1, 0, 0, 0) <> (0, 8 mod 2 ^ child_bits (main_map NumPy2), 0, 0).
Proof. repeat split. discriminate. Qed.

Lemma encode_carries_witness :
  make_uid NumPy2 (main_map NumPy2) 5 8192 9 =
    Some (Ok (5 * 2 ^ ssn_offset (main_map NumPy2)
              + 9 * 2 ^ child_offset (main_map NumPy2) + 8192)) /\
  parse_uid (main_map NumPy2)
      (5 * 2 ^ ssn_offset (main_map NumPy2)
       + 9 * 2 ^ child_offset (main_map NumPy2) + 8192) =
    (5 + (9 + 8192 / 2 ^ time_bits (main_map NumPy2))
           / 2 ^ child_bits (main_map NumPy2),
     (9 + 8192 / 2 ^ time_bits (main_map NumPy2))
       mod 2 ^ child_bits (main_map NumPy2),
     8192 mod 2 ^ day_bits (main_map NumPy2),
     (8192 mod 2 ^ time_bits (main_map NumPy2))
       / 2 ^ day_bits (main_map NumPy2)).
Proof.
  apply (encode_carries NumPy2 (main_map NumPy2) 5 8192 9).
  - apply main_map_layout.
  - lia.
  - lia.
  - lia.
  - vm_compute. reflexivity.
Defined.

(** C9, as stated, fails: [UidMap(4, 2**32, 2, 1)] has a valid layout,
    with 32 bits of year, and its year level is empty; the uid 0 decodes
    to the serial number 0, which is in range, and to the year 0, which is
    not: insert and lookup raise [IndexError] at the year level. *)
Lemma decode_year_out_of_range :
  __init__ NumPy2 4 (2 ^ 32) 2 1 = Ok (wide_map NumPy2) /\
  layout_ok NumPy2 (wide_map NumPy2) /\
  year_bits (wide_map NumPy2) = 32 /\
  mapping (wide_map NumPy2) = [] /\
  mapping (wide_map NumPy1) = [] /\
  parse_uid (wide_map NumPy2) 0 = (0, 0, 0, 0) /\
  0 < 2 ^ pop_bits (wide_map NumPy2) /\
  (length (mapping (wide_map NumPy2)) <= Z.to_nat 0)%nat /\
  add_individual NumPy2 (wide_map NumPy2) 0 0
    = (wide_map NumPy2, Raise IndexError) /\
  get_index (wide_map NumPy2) 0 = (wide_map NumPy2, Raise IndexError).
Proof.
  split; [reflexivity|]. split; [apply wide_map_layout|].
  repeat split. simpl. lia.
Qed.

Lemma decode_bounds_witness :
  (0 <= 0 < 2 ^ year_bits (small_map NumPy2) /\
   0 <= 0 < 2 ^ child_bits (small_map NumPy2) /\
   0 <= 0 < 2 ^ day_bits (small_map NumPy2) /\
   0 <= 4 < 2 ^ (64 - ssn_offset (small_map NumPy2))) /\
  (allocatable NumPy2 (small_map NumPy2) ->
   (Z.to_nat 0
    < Z.to_nat (to_u32 (shl1 NumPy2 (year_bits (small_map NumPy2)))))%nat /\
   (Z.to_nat 0 < Z.to_nat (shl1 NumPy2 (child_bits (small_map NumPy2))))%nat /\
   (Z.to_nat 0 < Z.to_nat (shl1 NumPy2 (day_bits (small_map NumPy2))))%nat) /\
  (32 <= year_bits (small_map NumPy2) ->
   Z.to_nat (to_u32 (shl1 NumPy2 (year_bits (small_map NumPy2)))) = 0%nat) /\
  (pop_bits (small_map NumPy2) + time_bits (small_map NumPy2)
   + child_bits (small_map NumPy2) < 64 ->
   exists u, is_u64 u /\
             2 ^ pop_bits (small_map NumPy2)
             <= fst (fst (fst (parse_uid (small_map NumPy2) u)))).
Proof.
  apply (decode_bounds NumPy2 (small_map NumPy2) 32 4 0 0 0).
  - apply small_map_layout.
  - reflexivity.
Defined.

(** ** Enumeration *)

(** C3, as stated, fails: a uid inserted with the storage index
    [0xFFFFFFFFFFFFFFFF] is not enumerated, though no other uid was ever
    written to its position. *)
Lemma enumeration_misses_sentinel_index :
  exists m,
    add_all NumPy2 (small_map NumPy2) [(8, sentinel)] = (m, Ok tt) /\
    snd (uids m) = [] /\
    ~ (forall u, u ∈ snd (uids m) <-> u ∈ fst <$> [(8, sentinel)]).
Proof.
  eexists. split; [reflexivity|]. split; [reflexivity|].
  intros H. destruct (H 8) as [_ H8].
  assert (Hin : 8 ∈ fst <$> [(8, sentinel)]) by (simpl; apply list_elem_of_here).
  apply H8 in Hin. simpl in Hin. now apply elem_of_nil in Hin.
Qed.

Lemma enumeration_complete_witness :
  (forall u,
     u ∈ snd (uids (fst (add_all NumPy2 (small_map NumPy2)
                           [(8, 7); (11, 3); (8, 9)])))
     <-> exists i, last_insert [(8, 7); (11, 3); (8, 9)] u = Some i /\
                   i <> sentinel) /\
  NoDup (snd (uids (fst (add_all NumPy2 (small_map NumPy2)
                           [(8, 7); (11, 3); (8, 9)])))).
Proof.
  apply (enumeration_complete NumPy2 (small_map NumPy2)).
  - apply small_map_layout.
  - apply of_bits_vacant.
  - reflexivity.
Defined.

(** ** Lookup of an unbound uid *)

(** C4, as stated, fails: after uid 8 alone is inserted, the lookup of
    uid 16, never inserted, raises nothing and returns the sentinel; on
    the new table the lookup raises [TypeError]. *)
Lemma lookup_returns_sentinel :
  exists m,
    add_all NumPy2 (small_map NumPy2) [(8, 7)] = (m, Ok tt) /\
    last_insert [(8, 7)] 16 = None /\
    get_index m 16 = (m, Ok sentinel) /\
    get_index (small_map NumPy2) 16 = (small_map NumPy2, Raise TypeError).
Proof. eexists. repeat split. Qed.

(** On [UidMap(1, 1, 1, 1)] after the insert of uid 0, the lookup of the
    uid [2^63], never inserted, raises [OverflowError]. *)
Lemma lookup_unbound_witness :
  get_index (fst (add_all NumPy2 (tiny_map NumPy2) [(0, 5)])) (2 ^ 63) =
    (fst (add_all NumPy2 (tiny_map NumPy2) [(0, 5)]), Raise OverflowError).
Proof.
  apply (lookup_unbound NumPy2 (tiny_map NumPy2)
           (fst (add_all NumPy2 (tiny_map NumPy2) [(0, 5)])) [(0, 5)]
           (2 ^ 63) (2 ^ 63) 0 0 0).
  - apply tiny_map_layout.
  - apply tiny_map_allocatable.
  - apply of_bits_shape.
  - apply of_bits_vacant.
  - reflexivity.
  - reflexivity.
  - reflexivity.
Defined.

(** ** Construction *)

(** C5, as stated, fails: the constructor returns an object for widths
    31 + 31 + 3 = 65 > 64, and for a day of 8 bits in a time of 4 bits,
    where the year level is empty. *)
Lemma construct_accepts_invalid :
  (exists m, __init__ NumPy2 (2 ^ 31) (2 ^ 31) 8 (2 ^ 31) = Ok m /\
             pop_bits m + time_bits m + child_bits m = 65 /\
             mapping m = [None]) /\
  (exists m, __init__ NumPy2 16 16 8 256 = Ok m /\
             time_bits m = 4 /\ day_bits m = 8 /\ mapping m = []).
Proof. split; eexists; (split; [reflexivity|]); repeat split. Qed.

Lemma construct_unchecked_witness :
  exists m,
    __init__ NumPy2 10000 7300 8 256 = Ok m /\
    pop_bits m = Z.log2_up 10000 /\
    time_bits m = Z.log2_up 7300 /\
    child_bits m = Z.log2_up 8 /\
    day_bits m = Z.log2_up 256 /\
    mapping m = replicate (length (mapping m)) None /\
    vacant m /\
    (day_bits m <= time_bits m ->
     year_bits m = time_bits m - day_bits m /\
     length (mapping m) = Z.to_nat (2 ^ year_bits m)).
Proof. apply (construct_unchecked NumPy2 10000 7300 8 256); lia. Defined.

(** ** Coordinates beyond the table *)

(** C7, as stated, fails: uid 32 decodes to serial number 4 where the
    arrays hold 4 rows, and its lookup on the new table raises
    [TypeError], not a bounds error. *)
Lemma lookup_out_of_range_type_error :
  parse_uid (small_map NumPy2) 32 = (4, 0, 0, 0) /\
  2 ^ pop_bits (small_map NumPy2) <= 4 /\
  get_index (small_map NumPy2) 32 = (small_map NumPy2, Raise TypeError).
Proof. repeat split. discriminate. Qed.

(** On [UidMap(4, 2**32, 2, 1)] the year 0 is beyond the year level. On
    [UidMap(1, 1, 1, 1)] the uid [2^63] is a serial number that no signed
    64-bit subscript holds. *)
Lemma out_of_range_raises_witness :
  (add_individual NumPy2 (wide_map NumPy2) 0 7
     = (wide_map NumPy2, Raise IndexError) /\
   get_index (wide_map NumPy2) 0 = (wide_map NumPy2, Raise IndexError)) /\
  (snd (add_individual NumPy2 (tiny_map NumPy2) (2 ^ 63) 1)
     = Raise OverflowError /\
   get_index (tiny_map NumPy2) (2 ^ 63)
     = (tiny_map NumPy2, Raise TypeError)).
Proof.
  split.
  - apply (out_of_range_raises NumPy2 (wide_map NumPy2) 0 7 0 0 0 0).
    + reflexivity.
    + simpl. lia.
  - apply (out_of_range_raises NumPy2 (tiny_map NumPy2)
             (2 ^ 63) 1 (2 ^ 63) 0 0 0).
    + reflexivity.
    + apply tiny_map_layout.
    + apply tiny_map_allocatable.
    + apply of_bits_shape.
    + simpl. lia.
Defined.

(** ** The sentinel as a storage index *)


(** ** Further properties *)

Lemma make_uid_parse_uid_witness :
  make_uid NumPy2 (main_map NumPy2) 5
    (27 * 2 ^ day_bits (main_map NumPy2) + 131) 2 = Some (Ok 351107).
Proof.
  apply (make_uid_parse_uid NumPy2 (main_map NumPy2) 351107 5 2 131 27).
  - apply main_map_layout.
  - vm_compute. split; [discriminate|reflexivity].
  - reflexivity.
Defined.

Lemma parse_uid_injective_witness : 65536 = 65536.
Proof.
  apply (parse_uid_injective NumPy2 (main_map NumPy2) 65536 65536).
  - apply main_map_layout.
  - unfold is_u64. lia.
  - unfold is_u64. lia.
  - reflexivity.
Defined.

Lemma make_uid_injective_witness : 5 = 5 /\ 7299 = 7299 /\ 2 = 2.
Proof.
  apply (make_uid_injective NumPy2 (main_map NumPy2) 5 7299 2 5 7299 2).
  - apply main_map_layout.
  - vm_compute. discriminate.
  - simpl. lia.
  - simpl. lia.
  - simpl. lia.
  - simpl. lia.
  - simpl. lia.
  - simpl. lia.
  - reflexivity.
Defined.

Lemma round_trip_exact_witness :
  exists uid,
    make_uid NumPy2 (main_map NumPy2) 9999 7299 7 = Some (Ok uid) /\
    parse_uid (main_map NumPy2) uid =
      (9999, 7, 7299 mod 2 ^ day_bits (main_map NumPy2),
       7299 / 2 ^ day_bits (main_map NumPy2)).
Proof.
  apply (round_trip_exact NumPy2 (main_map NumPy2) 9999 7299 7).
  - apply main_map_layout.
  - vm_compute. discriminate.
  - simpl. lia.
  - simpl. lia.
  - simpl. lia.
Defined.

Lemma round_trip_numpy1_witness :
  exists uid,
    make_uid NumPy1 (long_map NumPy1) 524288 524288 5 = Some (Ok uid) /\
    parse_uid (long_map NumPy1) uid =
      (524288, 5, 524288 mod 2 ^ day_bits (long_map NumPy1),
       524288 / 2 ^ day_bits (long_map NumPy1)).
Proof.
  apply (round_trip_numpy1 NumPy1 (long_map NumPy1) 524288 524288 5).
  - reflexivity.
  - apply long_map_layout.
  - simpl. lia.
  - simpl. lia.
  - simpl. lia.
  - lia.
  - lia.
  - lia.
Defined.

Lemma init_widths_fit_witness :
  (10000 <= 2 ^ pop_bits (main_map NumPy2)
   /\ 2 ^ pop_bits (main_map NumPy2) < 2 * 10000) /\
  (7300 <= 2 ^ time_bits (main_map NumPy2)
   /\ 2 ^ time_bits (main_map NumPy2) < 2 * 7300) /\
  (8 <= 2 ^ child_bits (main_map NumPy2)
   /\ 2 ^ child_bits (main_map NumPy2) < 2 * 8) /\
  (256 <= 2 ^ day_bits (main_map NumPy2)
   /\ 2 ^ day_bits (main_map NumPy2) < 2 * 256).
Proof.
  apply (init_widths_fit NumPy2 10000 7300 8 256 (main_map NumPy2));
    try lia. reflexivity.
Defined.



(** An index of [-1] is refused by NumPy 2 with [OverflowError], after the
    array of the uid was allocated. *)
Lemma failed_insert_keeps_bindings_witness :
  (forall u,
     binding (fst (add_individual NumPy2
                     (fst (add_individual NumPy2 (small_map NumPy2) 8 7))
                     16 (-1))) u
     = binding (fst (add_individual NumPy2 (small_map NumPy2) 8 7)) u) /\
  (forall v i,
     get_index (fst (add_individual NumPy2 (small_map NumPy2) 8 7)) v
       = (fst (add_individual NumPy2 (small_map NumPy2) 8 7), Ok i) ->
     get_index (fst (add_individual NumPy2
                       (fst (add_individual NumPy2 (small_map NumPy2) 8 7))
                       16 (-1))) v
       = (fst (add_individual NumPy2
                 (fst (add_individual NumPy2 (small_map NumPy2) 8 7))
                 16 (-1)),
          Ok i)).
Proof.
  apply (failed_insert_keeps_bindings NumPy2
           (fst (add_individual NumPy2 (small_map NumPy2) 8 7))
           _ 16 (-1) OverflowError).
  reflexivity.
Defined.

Lemma insert_keeps_other_bindings_witness :
  binding (fst (add_individual NumPy2
                  (fst (add_individual NumPy2 (small_map NumPy2) 8 7)) 16 5)) 8
    = binding (fst (add_individual NumPy2 (small_map NumPy2) 8 7)) 8 /\
  (forall i,
     get_index (fst (add_individual NumPy2 (small_map NumPy2) 8 7)) 8
       = (fst (add_individual NumPy2 (small_map NumPy2) 8 7), Ok i) ->
     get_index (fst (add_individual NumPy2
                       (fst (add_individual NumPy2 (small_map NumPy2) 8 7))
                       16 5)) 8
       = (fst (add_individual NumPy2
                 (fst (add_individual NumPy2 (small_map NumPy2) 8 7)) 16 5),
          Ok i)).
Proof.
  apply (insert_keeps_other_bindings NumPy2
           (fst (add_individual NumPy2 (small_map NumPy2) 8 7)) _ 16 5 8).
  - apply (add_individual_layout_ok NumPy2 (small_map NumPy2) _ 8 7 (Ok tt));
      [apply small_map_layout|reflexivity].
  - reflexivity.
  - vm_compute. discriminate.
Defined.


Lemma enumerated_uids_look_up_witness :
  exists i,
    get_index (fst (add_all NumPy2 (small_map NumPy2) [(8, 7); (11, 3)])) 11
      = (fst (add_all NumPy2 (small_map NumPy2) [(8, 7); (11, 3)]), Ok i) /\
    i <> sentinel /\
    binding (fst (add_all NumPy2 (small_map NumPy2) [(8, 7); (11, 3)])) 11
      = Some i.
Proof.
  apply (enumerated_uids_look_up
           (fst (add_all NumPy2 (small_map NumPy2) [(8, 7); (11, 3)])) 11).
  - apply (add_all_coherent NumPy2 (small_map NumPy2) _ [(8, 7); (11, 3)]);
      [apply vacant_coherent, of_bits_vacant|reflexivity].
  - vm_compute. apply list_elem_of_further, list_elem_of_here.
Defined.


Lemma insert_allocates_only_its_array_witness :
  (exists arr,
     array_at (fst (add_individual NumPy2 (small_map NumPy2) 11 3))
       (Z.to_nat 1) (Z.to_nat 0) (Z.to_nat 1) = Some arr) /\
  forall y' c' d' : nat,
    (y', c', d') <> (Z.to_nat 1, Z.to_nat 0, Z.to_nat 1) ->
    array_at (fst (add_individual NumPy2 (small_map NumPy2) 11 3)) y' c' d'
      = array_at (small_map NumPy2) y' c' d'.
Proof.
  apply (insert_allocates_only_its_array NumPy2 (small_map NumPy2) _
           11 3 1 0 1 1).
  - reflexivity.
  - reflexivity.
Defined.

Lemma insert_adds_uid_witness :
  8 ∈ snd (uids (fst (add_individual NumPy2
                        (fst (add_individual NumPy2 (small_map NumPy2) 8 7))
                        11 3)))
  <-> 8 = to_u64 11
      \/ 8 ∈ snd (uids (fst (add_individual NumPy2 (small_map NumPy2) 8 7))).
Proof.
  apply (insert_adds_uid NumPy2
           (fst (add_individual NumPy2 (small_map NumPy2) 8 7)) _ 11 3).
  - apply (add_individual_layout_ok NumPy2 (small_map NumPy2) _ 8 7 (Ok tt));
      [apply small_map_layout|reflexivity].
  - apply (add_individual_coherent NumPy2 (small_map NumPy2) _ 8 7);
      [apply vacant_coherent, of_bits_vacant|reflexivity].
  - reflexivity.
  - vm_compute. discriminate.
Defined.



Lemma enumeration_unchanged_witness :
  snd (uids (fst (add_individual NumPy2
                    (fst (add_individual NumPy2 (small_map NumPy2) 8 7)) 8 9)))
  = snd (uids (fst (add_individual NumPy2 (small_map NumPy2) 8 7))).
Proof.
  apply (enumeration_unchanged NumPy2
           (fst (add_individual NumPy2 (small_map NumPy2) 8 7)) _ 8 9
           (Ok tt)).
  - apply (add_individual_layout_ok NumPy2 (small_map NumPy2) _ 8 7 (Ok tt));
      [apply small_map_layout|reflexivity].
  - apply (add_individual_coherent NumPy2 (small_map NumPy2) _ 8 7);
      [apply vacant_coherent, of_bits_vacant|reflexivity].
  - reflexivity.
  - intros _. split; vm_compute; discriminate.
Defined.

Lemma insert_idempotent_witness :
  add_individual NumPy2
    (fst (add_individual NumPy2 (small_map NumPy2) 11 3)) 11 3
    = (fst (add_individual NumPy2 (small_map NumPy2) 11 3), Ok tt).
Proof.
  apply (insert_idempotent NumPy2 (small_map NumPy2) _ 11 3). reflexivity.
Defined.


(** With NumPy 2 the index [-1] is refused; with NumPy 1 it is stored as
    [2^64 - 1]. *)
Lemma insert_returns_iff_witness :
  (snd (add_individual NumPy2 (small_map NumPy2) 8 (-1)) = Ok tt <->
   1 < 2 ^ pop_bits (small_map NumPy2) /\ 0 <= -1 < 2 ^ 64) /\
  (snd (add_individual NumPy1 (small_map NumPy1) 8 (-1)) = Ok tt <->
   1 < 2 ^ pop_bits (small_map NumPy1) /\ - 2 ^ 63 <= -1 < 2 ^ 64).
Proof.
  split.
  - apply (insert_returns_iff NumPy2 (small_map NumPy2) 8 (-1) 1 0 0 0).
    + apply small_map_layout.
    + apply small_map_allocatable.
    + apply of_bits_shape.
    + reflexivity.
  - apply (insert_returns_iff NumPy1 (small_map NumPy1) 8 (-1) 1 0 0 0).
    + apply small_map_layout.
    + apply small_map_allocatable.
    + apply of_bits_shape.
    + reflexivity.
Defined.
